(** * WvStreams: typed serialization (wvserialize.h) and the backslash codec

    A shallow embedding of the serializers and deserializers of
    [wvserialize.h] over a model of [WvBuf], and of the backslash
    encoder/decoder pair exercised by the "old-style" unit test.

    Values of the C integer types are integers ([Z]) in the range of their
    type; an object in memory is the list of its bytes in the byte order of
    the host; a [WvBuf] is the list of its unread bytes.  Operations whose
    contract can be broken ([get], [merge], the [assert(0)] of the scalar
    helpers) return [option]. *)

From Stdlib Require Import ZArith List Bool Lia.
From Stdlib Require Import Strings.Byte.
From Stdlib Require Strings.String.
Import ListNotations.

Local Open Scope Z_scope.

(** ** Bytes *)

Definition Z_of_byte (b : byte) : Z := Z.of_N (Byte.to_N b).

Definition byte_of_Z (z : Z) : byte :=
  match Byte.of_N (Z.to_N (z mod 256)) with
  | Some b => b
  | None => x00
  end.

Definition is_nul (b : byte) : bool := Byte.eqb b x00.

(** ** The error monad of the fallible operations *)

Definition bind {A B : Type} (m : option A) (k : A -> option B) : option B :=
  match m with
  | Some a => k a
  | None => None
  end.

Notation "x <- m ;; k" := (bind m (fun x => k))
  (at level 61, m at next level, right associativity).
Notation "' p <- m ;; k" := (bind m (fun p => k))
  (at level 61, p pattern, m at next level, right associativity).

(** ** WvBuf *)

Module WvBuf.

(** Modelled from the spec: [wvbuf.h] is not among the sources.  A buffer
    is a byte sequence with an implicit read cursor; the model keeps the
    bytes after the cursor, the head being the next byte read. *)
Definition t : Type := list byte.

Definition empty : t := [].

(** Modelled from the spec: [used()] (the spec's [avail()]) reports the
    remaining unread bytes. *)
Definition used (buf : t) : nat := length buf.

(** Modelled from the spec: [put(bytes)] appends. *)
Definition put (buf : t) (bytes : list byte) : t := buf ++ bytes.

(** Modelled from the spec: [get(n)] consumes and returns exactly [n]
    bytes; the caller must guarantee that [n] bytes are there, and the
    breach of that contract is [None]. *)
Definition get (buf : t) (n : nat) : option (list byte * t) :=
  if (n <=? used buf)%nat then Some (firstn n buf, skipn n buf) else None.

(** Modelled from the spec: [peek(offset,n)] returns a read-only view and
    never advances the cursor. *)
Definition peek (buf : t) (offset n : nat) : list byte :=
  firstn n (skipn offset buf).

(** Modelled from the spec: [merge(other, n)] moves [n] bytes from the
    unread region of [other] to the end of this buffer.  The result is
    this buffer and what is left of [other]. *)
Definition merge (buf other : t) (n : nat) : option (t * t) :=
  '(bytes, other') <- get other n ;;
  Some (put buf bytes, other').

End WvBuf.

(** ** Integers in memory *)

(** The [w] base-256 digits of [z], least significant first.  With the
    floor division of [Z] a negative [z] gives its two's complement. *)
Fixpoint le_digits (w : nat) (z : Z) : list byte :=
  match w with
  | O => []
  | S w' => byte_of_Z (z mod 256) :: le_digits w' (z / 256)
  end.

Fixpoint le_number (bs : list byte) : Z :=
  match bs with
  | [] => 0
  | b :: rest => Z_of_byte b + 256 * le_number rest
  end.

(** Network byte order: most significant byte first. *)
Definition be_bytes (w : nat) (z : Z) : list byte := rev (le_digits w z).
Definition be_number (bs : list byte) : Z := le_number (rev bs).

Definition modulus (w : nat) : Z := 2 ^ (8 * Z.of_nat w).

Definition to_unsigned (w : nat) (z : Z) : Z := z mod modulus w.

Definition to_signed (w : nat) (z : Z) : Z :=
  let u := to_unsigned w z in
  if u <? modulus w / 2 then u else u - modulus w.

(** ** The host: byte order and the sizes of the C types *)

Inductive ByteOrder : Set := LittleEndian | BigEndian.

(** The usual data models: they fix [sizeof(long)] and [sizeof(size_t)]. *)
Inductive DataModel : Set := ILP32 | LP64 | LLP64.

Record Host : Set := mkHost {
  byte_order : ByteOrder;
  data_model : DataModel;
  char_is_signed : bool
}.

(** The eleven integer types that have a [_wv_serialize] overload and a
    [_wv_deserialize] specialization. *)
Inductive CType : Set :=
  | LongLong | ULongLong | Long | ULong | Int | UInt
  | Short | UShort | Char | SChar | UChar.

Definition sizeof (h : Host) (T : CType) : nat :=
  match T with
  | LongLong | ULongLong => 8
  | Long | ULong => match data_model h with LP64 => 8 | ILP32 | LLP64 => 4 end
  | Int | UInt => 4
  | Short | UShort => 2
  | Char | SChar | UChar => 1
  end.

Definition is_signed (h : Host) (T : CType) : bool :=
  match T with
  | LongLong | Long | Int | Short | SChar => true
  | ULongLong | ULong | UInt | UShort | UChar => false
  | Char => char_is_signed h
  end.

Definition size_t (h : Host) : CType :=
  match data_model h with
  | ILP32 => UInt
  | LP64 => ULong
  | LLP64 => ULongLong
  end.

(** The conversion [(T) z]: reduction modulo [2^(8 * sizeof(T))], read as
    two's complement when [T] is signed. *)
Definition cast (h : Host) (T : CType) (z : Z) : Z :=
  if is_signed h T then to_signed (sizeof h T) z else to_unsigned (sizeof h T) z.

(** [v] is a value of type [T]. *)
Definition representable (h : Host) (T : CType) (v : Z) : Prop :=
  if is_signed h T
  then - (modulus (sizeof h T) / 2) <= v < modulus (sizeof h T) / 2
  else 0 <= v < modulus (sizeof h T).

Definition min_value (h : Host) (T : CType) : Z :=
  if is_signed h T then - (modulus (sizeof h T) / 2) else 0.

Definition max_value (h : Host) (T : CType) : Z :=
  if is_signed h T then modulus (sizeof h T) / 2 - 1 else modulus (sizeof h T) - 1.

(** The bytes of an integer object of [w] bytes holding [z], in the order
    they have in the memory of the host, and the unsigned number that a run
    of bytes in memory stands for. *)
Definition object_bytes (h : Host) (w : nat) (z : Z) : list byte :=
  match byte_order h with
  | LittleEndian => le_digits w z
  | BigEndian => be_bytes w z
  end.

Definition object_number (h : Host) (bs : list byte) : Z :=
  match byte_order h with
  | LittleEndian => le_number bs
  | BigEndian => be_number bs
  end.

(** [*(intN_t * )p]: the signed integer of [w] bytes stored at [p]. *)
Definition load_signed (h : Host) (w : nat) (bs : list byte) : Z :=
  to_signed w (object_number h bs).

(** The byte swap behind [htonl] and [htons] on a little-endian host. *)
Definition bswap (w : nat) (x : Z) : Z := le_number (rev (le_digits w x)).

Definition htonl (h : Host) (x : Z) : Z :=
  match byte_order h with
  | BigEndian => to_unsigned 4 x
  | LittleEndian => bswap 4 x
  end.

Definition htons (h : Host) (x : Z) : Z :=
  match byte_order h with
  | BigEndian => to_unsigned 2 x
  | LittleEndian => bswap 2 x
  end.

Definition ntohl := htonl.
Definition ntohs := htons.

(** ** Scalars (wvserialize.h, lines 35-83 and 206-260) *)

(** [buf.put(&x, n)] for an integer object [x] of [w] bytes: the first [n]
    bytes at the address of [x]. *)
Definition put_object (h : Host) (buf : WvBuf.t) (w : nat) (x : Z) (n : nat)
  : WvBuf.t :=
  WvBuf.put buf (firstn n (object_bytes h w x)).

Definition wv_serialize_scalar (h : Host) (T : CType) (buf : WvBuf.t) (t : Z)
  : option WvBuf.t :=
  if (sizeof h T =? 8)%nat then
    Some (put_object h buf (sizeof h T) t 8)
  else if (sizeof h T =? 4)%nat then
    let i := to_signed 4 (htonl h t) in
    Some (put_object h buf 4 i 4)
  else if (sizeof h T =? 2)%nat then
    let i := to_signed 4 (htons h t) in
    Some (put_object h buf 4 i 2)
  else if (sizeof h T =? 1)%nat then
    Some (put_object h buf (sizeof h T) t 1)
  else
    None.

Definition _wv_serialize (h : Host) (T : CType) (buf : WvBuf.t) (i : Z)
  : option WvBuf.t :=
  wv_serialize_scalar h T buf i.

Definition wv_serialize := _wv_serialize.

Definition wv_deserialize_scalar (h : Host) (T : CType) (buf : WvBuf.t)
  : option (Z * WvBuf.t) :=
  if (WvBuf.used buf <? sizeof h T)%nat then
    Some (0, buf)
  else if (sizeof h T =? 8)%nat then
    '(p, buf') <- WvBuf.get buf 8 ;;
    Some (cast h T (load_signed h 8 p), buf')
  else if (sizeof h T =? 4)%nat then
    '(p, buf') <- WvBuf.get buf 4 ;;
    Some (cast h T (ntohl h (load_signed h 4 p)), buf')
  else if (sizeof h T =? 2)%nat then
    '(p, buf') <- WvBuf.get buf 2 ;;
    Some (cast h T (ntohs h (load_signed h 2 p)), buf')
  else if (sizeof h T =? 1)%nat then
    '(p, buf') <- WvBuf.get buf 1 ;;
    Some (cast h T (load_signed h 1 p), buf')
  else
    None.

Definition _wv_deserialize (h : Host) (T : CType) (buf : WvBuf.t)
  : option (Z * WvBuf.t) :=
  wv_deserialize_scalar h T buf.

(** [wv_deserialize<T>] goes through [WvDeserialize<T>::go]. *)
Definition WvDeserialize_go := _wv_deserialize.
Definition wv_deserialize := WvDeserialize_go.

(** Some hosts. *)
Definition x86_64 : Host := mkHost LittleEndian LP64 true.
Definition i386 : Host := mkHost LittleEndian ILP32 true.
Definition ppc32 : Host := mkHost BigEndian ILP32 false.
Definition s390x : Host := mkHost BigEndian LP64 false.

(** ** Text (wvserialize.h, lines 86-97 and 262-268) *)

(** A [WvString] is null or holds a character array; as a C string its
    content ends before the first nul of the array. *)
Inductive WvString : Type :=
  | WvNull
  | WvStr (chars : list byte).

Definition isnull (s : WvString) : bool :=
  match s with
  | WvNull => true
  | WvStr _ => false
  end.

Fixpoint c_str (chars : list byte) : list byte :=
  match chars with
  | [] => []
  | c :: rest => if is_nul c then [] else c :: c_str rest
  end.

Definition cstr (s : WvString) : list byte :=
  match s with
  | WvNull => []
  | WvStr chars => c_str chars
  end.

(** Modelled from the spec: [WvBuf::putstr] is not among the sources; it
    appends the content bytes of the text, without a terminator. *)
Definition putstr (buf : WvBuf.t) (s : WvString) : WvBuf.t :=
  WvBuf.put buf (cstr s).

Definition _wv_serialize_WvString (buf : WvBuf.t) (s : WvString) : WvBuf.t :=
  let buf1 := if negb (isnull s) then putstr buf s else buf in
  WvBuf.put buf1 [x00].

(** The offset of the first nul among the unread bytes. *)
Fixpoint find_nul (bytes : list byte) : option nat :=
  match bytes with
  | [] => None
  | c :: rest => if is_nul c then Some O else option_map S (find_nul rest)
  end.

(** Modelled from the spec: [_wv_deserialize<WvString>] is declared
    [extern] and its body is not among the sources.  It stops at, and
    consumes, the terminating nul and returns the content before it; with no
    terminator among the unread bytes it returns the placeholder (the null
    text) and consumes nothing, the underflow policy of the layer. *)
Definition _wv_deserialize_WvString (buf : WvBuf.t)
  : option (WvString * WvBuf.t) :=
  match find_nul buf with
  | Some n =>
      '(p, buf') <- WvBuf.get buf (S n) ;;
      Some (WvStr (firstn n p), buf')
  | None => Some (WvNull, buf)
  end.

(** ** Nested buffers (wvserialize.h, lines 104-108 and 273-284) *)

(** The result is the output buffer and the source buffer, which [peek]
    leaves as it was. *)
Definition _wv_serialize_WvBuf (h : Host) (buf inbuf : WvBuf.t)
  : option (WvBuf.t * WvBuf.t) :=
  buf1 <- wv_serialize h (size_t h) buf (Z.of_nat (WvBuf.used inbuf)) ;;
  Some (WvBuf.put buf1
          (firstn (WvBuf.used inbuf) (WvBuf.peek inbuf 0 (WvBuf.used inbuf))),
        inbuf).

(** The result is the new buffer and what is left of [buf]. *)
Definition WvDeserialize_WvBuf_go (h : Host) (buf : WvBuf.t)
  : option (WvBuf.t * WvBuf.t) :=
  '(len, buf1) <- wv_deserialize h (size_t h) buf ;;
  let outbuf := WvBuf.empty in
  WvBuf.merge outbuf buf1 (Z.to_nat len).

(** ** Lists (wvserialize.h, lines 116-126 and 288-305) *)

Section WvList.

Variable T : Type.

(** The serializer and the deserializer of the element type. *)
Variable serialize_T : WvBuf.t -> T -> option WvBuf.t.
Variable deserialize_T : WvBuf.t -> option (T * WvBuf.t).

(** [for (i.rewind(); i.next(); ) _wv_serialize(buf, *i);] *)
Fixpoint serialize_each (buf : WvBuf.t) (lst : list T) : option WvBuf.t :=
  match lst with
  | [] => Some buf
  | x :: rest =>
      buf' <- serialize_T buf x ;;
      serialize_each buf' rest
  end.

Definition _wv_serialize_WvList (h : Host) (buf : WvBuf.t) (lst : list T)
  : option WvBuf.t :=
  buf1 <- _wv_serialize h (size_t h) buf
            (cast h (size_t h) (Z.of_nat (length lst))) ;;
  serialize_each buf1 lst.

(** [for (count = 0; count < nelems; count++) list->append(...)], with
    [todo] the iterations that remain. *)
Fixpoint deserialize_each (todo : nat) (buf : WvBuf.t) (lst : list T)
  : option (list T * WvBuf.t) :=
  match todo with
  | O => Some (lst, buf)
  | S todo' =>
      '(t, buf') <- deserialize_T buf ;;
      deserialize_each todo' buf' (lst ++ [t])
  end.

Definition WvDeserialize_WvList_go (h : Host) (buf : WvBuf.t)
  : option (list T * WvBuf.t) :=
  let lst := [] in
  '(nelems, buf1) <- wv_deserialize h (size_t h) buf ;;
  deserialize_each (Z.to_nat nelems) buf1 lst.

End WvList.

Arguments serialize_each {T} serialize_T buf lst.
Arguments _wv_serialize_WvList {T} serialize_T h buf lst.
Arguments deserialize_each {T} deserialize_T todo buf lst.
Arguments WvDeserialize_WvList_go {T} deserialize_T h buf.

(** ** Encoders and the stream adapter *)

(** Modelled from the spec: [wvencoder.h] is not among the sources.  An
    encoder owns transform-local state; [encode] consumes the input and
    appends to the output, [flush] emits the retained partial state; both
    report success. *)
Record WvEncoder : Type := mkEncoder {
  enc_state : Type;
  enc_init : enc_state;
  encode : enc_state -> list byte -> enc_state * list byte * bool;
  flush : enc_state -> enc_state * list byte * bool
}.

(** Modelled from the spec: [wvencoderstream.h] is not among the sources.
    [write] pushes the outgoing bytes through the write chain, here a chain
    of one encoder, and with [auto_flush(true)] flushes it, before the bytes
    reach the wrapped stream; a failed stage halts the processing.  The
    result is the state of the encoder and the bytes handed on. *)
Definition write (e : WvEncoder) (auto_flush : bool)
    (st : enc_state e) (data : list byte) : enc_state e * list byte :=
  let '(st1, out1, ok1) := encode e st data in
  if ok1 && auto_flush then
    let '(st2, out2, _) := flush e st1 in
    (st2, out1 ++ out2)
  else
    (st1, out1).

(** The loop of the "old-style" test (lines 30-37 and 61-68): each input is
    written, and what the wrapped stream received is read back at once.  The
    result is the list of the strings read back, with the final state. *)
Fixpoint write_each (e : WvEncoder) (auto_flush : bool)
    (st : enc_state e) (input : list (list byte))
  : enc_state e * list (list byte) :=
  match input with
  | [] => (st, [])
  | chunk :: rest =>
      let '(st1, result) := write e auto_flush st chunk in
      let '(st2, results) := write_each e auto_flush st1 rest in
      (st2, result :: results)
  end.

(** ** The backslash codec *)

Module WvBackslash.

Import Stdlib.Strings.String.
Local Open Scope string_scope.
Local Open Scope list_scope.

Definition newline : byte := x0a.
Definition backspace : byte := x08.
Definition backslash : byte := x5c.
Definition letter_n : byte := x6e.
Definition letter_b : byte := x62.

(** Modelled from the spec: [wvbackslash.h] is not among the sources.  The
    must-escape set is newline, backspace and backslash; the mnemonics are
    those of the strings of the test ([n], [b] and the backslash). *)
Definition mnemonic_of (b : byte) : option byte :=
  if Byte.eqb b newline then Some letter_n
  else if Byte.eqb b backspace then Some letter_b
  else if Byte.eqb b backslash then Some backslash
  else None.

(** Modelled from the spec: the mnemonic table read backwards, for the
    decoder. *)
Definition byte_of_mnemonic (m : byte) : option byte :=
  if Byte.eqb m letter_n then Some newline
  else if Byte.eqb m letter_b then Some backspace
  else if Byte.eqb m backslash then Some backslash
  else None.

(** Modelled from the spec: the encode rule.  A byte of the must-escape
    set becomes a backslash and its mnemonic, any other byte is copied. *)
Definition encode_byte (b : byte) : list byte :=
  match mnemonic_of b with
  | Some m => [backslash; m]
  | None => [b]
  end.

Definition encode_bytes (input : list byte) : list byte :=
  flat_map encode_byte input.

(** Modelled from the spec: the encoder keeps no state across calls. *)
Definition WvBackslashEncoder : WvEncoder := {|
  enc_state := unit;
  enc_init := tt;
  encode := fun st input => (st, encode_bytes input, true);
  flush := fun st => (st, [], true)
|}.

(** Modelled from the spec: the decoder is a machine of two states. *)
Inductive DecoderState : Set := PASSTHROUGH | PENDING_ESCAPE.

(** Modelled from the spec: the decode rule.  A backslash is retained and
    nothing is emitted; the byte after it is translated through the
    mnemonic table, and a byte that is no mnemonic is emitted after the
    backslash, both literally. *)
Definition decode_byte (st : DecoderState) (b : byte)
  : DecoderState * list byte :=
  match st with
  | PASSTHROUGH =>
      if Byte.eqb b backslash then (PENDING_ESCAPE, [])
      else (PASSTHROUGH, [b])
  | PENDING_ESCAPE =>
      match byte_of_mnemonic b with
      | Some original => (PASSTHROUGH, [original])
      | None => (PASSTHROUGH, [backslash; b])
      end
  end.

Fixpoint decode_bytes (st : DecoderState) (input : list byte)
  : DecoderState * list byte :=
  match input with
  | [] => (st, [])
  | b :: rest =>
      let '(st1, out1) := decode_byte st b in
      let '(st2, out2) := decode_bytes st1 rest in
      (st2, out1 ++ out2)
  end.

(** Modelled from the spec: [flush] with a pending backslash emits it
    literally; nothing is retained afterwards. *)
Definition decode_flush (st : DecoderState) : DecoderState * list byte :=
  match st with
  | PASSTHROUGH => (PASSTHROUGH, [])
  | PENDING_ESCAPE => (PASSTHROUGH, [backslash])
  end.

(** Modelled from the spec: the decoder as an encoder of the chain. *)
Definition WvBackslashDecoder : WvEncoder := {|
  enc_state := DecoderState;
  enc_init := PASSTHROUGH;
  encode := fun st input =>
    let '(st', out) := decode_bytes st input in (st', out, true);
  flush := fun st => let '(st', out) := decode_flush st in (st', out, true)
|}.

(** The strings of the test (part_000, lines 18-21 and 49-52).  A string
    literal here has no escape sequences: each backslash below is one byte,
    as each doubled backslash of the C literals is. *)
Definition str (s : String.string) : list byte := String.list_byte_of_string s.

Definition plain : list (list byte) :=
  [ str "encode this!" ++ [newline];
    str "baroofey" ++ [newline];
    [backslash];
    [newline] ++ str "magoo" ++ [backspace];
    str " " ].

Definition escaped : list (list byte) :=
  [ str "encode this!\n";
    str "baroofey\n";
    str "\\";
    str "\nmagoo\b";
    str " " ].

End WvBackslash.

(** ** Derived notions used in the statements *)

(** The bytes that serializing [t] at type [T] appends. *)
Definition wire_bytes (h : Host) (T : CType) (t : Z) : list byte :=
  match wv_serialize_scalar h T WvBuf.empty t with
  | Some buf => buf
  | None => []
  end.

(** The serializer of the elements of a [WvList<WvString>]: the overload
    of line 92, which has no failure. *)
Definition serialize_WvString (buf : WvBuf.t) (s : WvString) : option WvBuf.t :=
  Some (_wv_serialize_WvString buf s).

(** The bytes that serializing the text [s] appends. *)
Definition text_bytes (s : WvString) : list byte :=
  _wv_serialize_WvString WvBuf.empty s.

(** * Properties *)

(** ** Bytes and digits *)

Lemma Z_of_byte_range (b : byte) : 0 <= Z_of_byte b < 256.
Proof.
  unfold Z_of_byte. pose proof (Byte.to_N_bounded b). lia.
Qed.

Lemma Z_of_byte_of_Z (z : Z) : Z_of_byte (byte_of_Z z) = z mod 256.
Proof.
  unfold Z_of_byte, byte_of_Z.
  assert (Hr : 0 <= z mod 256 < 256) by (apply Z.mod_pos_bound; lia).
  destruct (Byte.of_N (Z.to_N (z mod 256))) as [b|] eqn:E.
  - apply Byte.to_of_N in E. rewrite E. lia.
  - apply Byte.of_N_None_iff in E. lia.
Qed.

Lemma byte_of_Z_of_byte (b : byte) : byte_of_Z (Z_of_byte b) = b.
Proof.
  unfold byte_of_Z, Z_of_byte.
  pose proof (Byte.to_N_bounded b).
  rewrite Z.mod_small by lia.
  rewrite N2Z.id, Byte.of_to_N. reflexivity.
Qed.

Lemma modulus_pos (w : nat) : 0 < modulus w.
Proof. unfold modulus. apply Z.pow_pos_nonneg; lia. Qed.

Lemma modulus_succ (w : nat) : modulus (S w) = 256 * modulus w.
Proof.
  unfold modulus.
  replace (8 * Z.of_nat (S w)) with (8 + 8 * Z.of_nat w) by lia.
  rewrite Z.pow_add_r by lia. reflexivity.
Qed.

Lemma length_le_digits (w : nat) (z : Z) : length (le_digits w z) = w.
Proof.
  revert z. induction w as [|w IH]; intros z; simpl; [reflexivity|].
  now rewrite IH.
Qed.

Lemma length_be_bytes (w : nat) (z : Z) : length (be_bytes w z) = w.
Proof. unfold be_bytes. now rewrite length_rev, length_le_digits. Qed.

Lemma le_number_range (bs : list byte) :
  0 <= le_number bs < modulus (length bs).
Proof.
  induction bs as [|b bs IH].
  - simpl. unfold modulus. simpl. lia.
  - cbn [le_number length]. rewrite modulus_succ.
    pose proof (Z_of_byte_range b). lia.
Qed.

Lemma le_number_le_digits (w : nat) (z : Z) :
  le_number (le_digits w z) = z mod modulus w.
Proof.
  revert z. induction w as [|w IH]; intros z.
  - simpl. unfold modulus. simpl. now rewrite Z.mod_1_r.
  - cbn [le_digits le_number]. rewrite IH, Z_of_byte_of_Z, modulus_succ.
    pose proof (modulus_pos w).
    rewrite Z.mod_mod by lia.
    rewrite Z.rem_mul_r by lia. reflexivity.
Qed.

Lemma le_digits_le_number (bs : list byte) :
  le_digits (length bs) (le_number bs) = bs.
Proof.
  induction bs as [|b bs IH]; [reflexivity|].
  cbn [length le_digits le_number].
  pose proof (Z_of_byte_range b) as Hb.
  replace ((Z_of_byte b + 256 * le_number bs) mod 256) with (Z_of_byte b).
  2:{ rewrite (Z.mul_comm 256), Z.mod_add by lia.
      now rewrite Z.mod_small. }
  replace ((Z_of_byte b + 256 * le_number bs) / 256) with (le_number bs).
  2:{ rewrite (Z.mul_comm 256), Z.div_add by lia.
      rewrite (Z.div_small (Z_of_byte b)) by lia. lia. }
  now rewrite byte_of_Z_of_byte, IH.
Qed.

(** The digits depend on the number modulo [2^(8w)] only. *)
Lemma le_digits_congr (w : nat) (a b : Z) :
  a mod modulus w = b mod modulus w -> le_digits w a = le_digits w b.
Proof.
  intros H.
  rewrite <- (le_digits_le_number (le_digits w a)).
  rewrite <- (le_digits_le_number (le_digits w b)).
  now rewrite !length_le_digits, !le_number_le_digits, H.
Qed.

Lemma le_digits_firstn (k w : nat) (z : Z) :
  (k <= w)%nat -> firstn k (le_digits w z) = le_digits k z.
Proof.
  revert w z. induction k as [|k IH]; intros w z Hk; [reflexivity|].
  destruct w as [|w]; [lia|].
  cbn [le_digits firstn]. rewrite IH by lia. reflexivity.
Qed.

Lemma to_unsigned_range (w : nat) (z : Z) : 0 <= to_unsigned w z < modulus w.
Proof. apply Z.mod_pos_bound, modulus_pos. Qed.

Lemma to_signed_mod (w : nat) (z : Z) :
  to_signed w z mod modulus w = z mod modulus w.
Proof.
  unfold to_signed, to_unsigned. pose proof (modulus_pos w).
  destruct (z mod modulus w <? modulus w / 2).
  - now rewrite Z.mod_mod by lia.
  - replace (z mod modulus w - modulus w)
      with (z mod modulus w + (-1) * modulus w) by lia.
    rewrite Z.mod_add by lia. now rewrite Z.mod_mod by lia.
Qed.

Lemma to_unsigned_mod (w : nat) (z : Z) :
  to_unsigned w z mod modulus w = z mod modulus w.
Proof. unfold to_unsigned. pose proof (modulus_pos w). now rewrite Z.mod_mod by lia. Qed.

Lemma modulus_even (w : nat) : (0 < w)%nat -> modulus w = 2 * (modulus w / 2).
Proof.
  intros Hw. destruct w as [|w]; [lia|]. rewrite modulus_succ.
  replace (256 * modulus w) with (128 * modulus w * 2) by lia.
  rewrite Z.div_mul by lia. lia.
Qed.

Lemma to_signed_small (w : nat) (z : Z) :
  0 <= z < modulus w / 2 -> to_signed w z = z.
Proof.
  intros Hz. unfold to_signed, to_unsigned.
  pose proof (modulus_pos w).
  assert (modulus w / 2 <= modulus w) by (apply Z.div_le_upper_bound; lia).
  rewrite Z.mod_small by lia.
  destruct (z <? modulus w / 2) eqn:E; [reflexivity|].
  apply Z.ltb_ge in E. lia.
Qed.

(** A representable value is a fixed point of the conversion to its type. *)
Lemma cast_representable (h : Host) (T : CType) (v : Z) :
  (0 < sizeof h T)%nat -> representable h T v ->
  cast h T (v mod modulus (sizeof h T)) = v.
Proof.
  intros Hw. unfold representable, cast.
  pose proof (modulus_pos (sizeof h T)) as Hm.
  pose proof (modulus_even (sizeof h T) Hw) as He.
  destruct (is_signed h T); intros Hv.
  - unfold to_signed, to_unsigned. rewrite Z.mod_mod by lia.
    destruct (Z_lt_le_dec v 0) as [Hneg|Hpos].
    + replace (v mod modulus (sizeof h T)) with (v + modulus (sizeof h T)).
      2:{ symmetry. rewrite <- (Z.mod_add v 1) by lia.
          rewrite Z.mul_1_l. apply Z.mod_small. lia. }
      destruct (v + modulus (sizeof h T) <? modulus (sizeof h T) / 2) eqn:E.
      * apply Z.ltb_lt in E. lia.
      * lia.
    + rewrite Z.mod_small by lia.
      destruct (v <? modulus (sizeof h T) / 2) eqn:E; [reflexivity|].
      apply Z.ltb_ge in E. lia.
  - unfold to_unsigned. rewrite Z.mod_mod by lia. apply Z.mod_small. lia.
Qed.

Lemma sizeof_pos (h : Host) (T : CType) : (0 < sizeof h T)%nat.
Proof. destruct T; simpl; try lia; destruct (data_model h); lia. Qed.

(** ** The byte swap *)

Lemma le_digits_bswap (w : nat) (x : Z) :
  le_digits w (bswap w x) = rev (le_digits w x).
Proof.
  unfold bswap.
  rewrite <- (length_le_digits w x) at 1. rewrite <- length_rev.
  apply le_digits_le_number.
Qed.

Lemma bswap_range (w : nat) (x : Z) : 0 <= bswap w x < modulus w.
Proof.
  unfold bswap.
  pose proof (le_number_range (rev (le_digits w x))) as H.
  now rewrite length_rev, length_le_digits in H.
Qed.

Lemma bswap_congr (w : nat) (a b : Z) :
  a mod modulus w = b mod modulus w -> bswap w a = bswap w b.
Proof. intros H. unfold bswap. now rewrite (le_digits_congr w a b H). Qed.

Lemma bswap_involutive (w : nat) (x : Z) :
  bswap w (bswap w x) = x mod modulus w.
Proof.
  unfold bswap at 1. rewrite le_digits_bswap, rev_involutive.
  apply le_number_le_digits.
Qed.

(** ** Buffers *)

Lemma get_app (bs rest : list byte) (n : nat) :
  length bs = n -> WvBuf.get (bs ++ rest) n = Some (bs, rest).
Proof.
  intros <-. unfold WvBuf.get, WvBuf.used.
  rewrite length_app.
  replace (length bs <=? length bs + length rest)%nat with true
    by (symmetry; apply Nat.leb_le; lia).
  rewrite firstn_app, Nat.sub_diag, firstn_all, app_nil_r.
  rewrite skipn_app, Nat.sub_diag, skipn_all, app_nil_l.
  reflexivity.
Qed.

Lemma get_underflow (buf : WvBuf.t) (n : nat) :
  (WvBuf.used buf < n)%nat -> WvBuf.get buf n = None.
Proof.
  intros H. unfold WvBuf.get.
  replace (n <=? WvBuf.used buf)%nat with false
    by (symmetry; apply Nat.leb_gt; lia).
  reflexivity.
Qed.

Lemma peek_all (buf : WvBuf.t) :
  WvBuf.peek buf 0 (WvBuf.used buf) = buf.
Proof. unfold WvBuf.peek, WvBuf.used. simpl. apply firstn_all. Qed.

(** ** Scalars on the wire *)

Lemma sizeof_cases (h : Host) (T : CType) :
  sizeof h T = 1%nat \/ sizeof h T = 2%nat \/
  sizeof h T = 4%nat \/ sizeof h T = 8%nat.
Proof. destruct T; simpl; auto; destruct (data_model h); auto. Qed.

Lemma sizeof_size_t (h : Host) :
  sizeof h (size_t h) = 4%nat \/ sizeof h (size_t h) = 8%nat.
Proof.
  unfold size_t. destruct (data_model h) eqn:E; simpl; rewrite ?E; auto.
Qed.

Lemma object_bytes_congr (h : Host) (w : nat) (a b : Z) :
  a mod modulus w = b mod modulus w -> object_bytes h w a = object_bytes h w b.
Proof.
  intros H. unfold object_bytes, be_bytes.
  now rewrite (le_digits_congr w a b H).
Qed.

Lemma length_object_bytes (h : Host) (w : nat) (z : Z) :
  length (object_bytes h w z) = w.
Proof.
  unfold object_bytes.
  destruct (byte_order h); [apply length_le_digits | apply length_be_bytes].
Qed.

Lemma object_number_bytes (h : Host) (w : nat) (z : Z) :
  object_number h (object_bytes h w z) = z mod modulus w.
Proof.
  unfold object_number, object_bytes, be_number, be_bytes.
  destruct (byte_order h); rewrite ?rev_involutive; apply le_number_le_digits.
Qed.

(** What [htonl] is for: the object holding its result has the bytes of the
    argument in network order. *)
Lemma object_bytes_htonl (h : Host) (x : Z) :
  object_bytes h 4 (to_signed 4 (htonl h x)) = be_bytes 4 x.
Proof.
  rewrite (object_bytes_congr h 4 _ (htonl h x)) by apply to_signed_mod.
  unfold object_bytes, htonl, be_bytes.
  destruct (byte_order h).
  - apply le_digits_bswap.
  - f_equal. apply le_digits_congr, to_unsigned_mod.
Qed.

Lemma int32_of_uint16 (u : Z) : 0 <= u < modulus 2 -> to_signed 4 u = u.
Proof.
  intros Hu. apply to_signed_small.
  change (modulus 4 / 2) with 2147483648. change (modulus 2) with 65536 in Hu.
  lia.
Qed.

(** The two-byte path copies the first two bytes of a four-byte object.  On
    a little-endian host these are the two bytes that [htons] swapped ... *)
Lemma put_htons_little_endian (h : Host) (x : Z) :
  byte_order h = LittleEndian ->
  firstn 2 (object_bytes h 4 (to_signed 4 (htons h x))) = be_bytes 2 x.
Proof.
  intros E. unfold object_bytes, htons. rewrite E.
  rewrite int32_of_uint16 by apply bswap_range.
  rewrite le_digits_firstn by lia.
  apply le_digits_bswap.
Qed.

(** ... and on a big-endian host the two high bytes, which are zero. *)
Lemma put_htons_big_endian (h : Host) (x : Z) :
  byte_order h = BigEndian ->
  firstn 2 (object_bytes h 4 (to_signed 4 (htons h x))) = [x00; x00].
Proof.
  intros E. unfold object_bytes, htons. rewrite E.
  pose proof (to_unsigned_range 2 x) as Hu.
  rewrite int32_of_uint16 by exact Hu.
  change (modulus 2) with 65536 in Hu.
  unfold be_bytes. cbn [le_digits rev app firstn].
  rewrite !Z.div_div by lia. cbn [Z.mul Pos.mul].
  rewrite !(Z.div_small (to_unsigned 2 x)) by lia.
  reflexivity.
Qed.

(** What [ntohl] and [ntohs] are for: applied to the integer loaded from
    [w] bytes they give the number those bytes spell in network order. *)
Lemma ntohl_load (h : Host) (bs : list byte) :
  length bs = 4%nat -> ntohl h (load_signed h 4 bs) = be_number bs.
Proof.
  intros L. unfold ntohl, htonl, load_signed, object_number.
  destruct (byte_order h).
  - rewrite (bswap_congr 4 _ (le_number bs)) by apply to_signed_mod.
    unfold bswap, be_number. rewrite <- L at 1.
    now rewrite le_digits_le_number.
  - unfold to_unsigned. rewrite to_signed_mod. apply Z.mod_small.
    unfold be_number. rewrite <- L, <- (length_rev bs).
    apply le_number_range.
Qed.

Lemma ntohs_load (h : Host) (bs : list byte) :
  length bs = 2%nat -> ntohs h (load_signed h 2 bs) = be_number bs.
Proof.
  intros L. unfold ntohs, htons, load_signed, object_number.
  destruct (byte_order h).
  - rewrite (bswap_congr 2 _ (le_number bs)) by apply to_signed_mod.
    unfold bswap, be_number. rewrite <- L at 1.
    now rewrite le_digits_le_number.
  - unfold to_unsigned. rewrite to_signed_mod. apply Z.mod_small.
    unfold be_number. rewrite <- L, <- (length_rev bs).
    apply le_number_range.
Qed.

Lemma be_number_be_bytes (w : nat) (z : Z) :
  be_number (be_bytes w z) = z mod modulus w.
Proof.
  unfold be_number, be_bytes. rewrite rev_involutive.
  apply le_number_le_digits.
Qed.

Lemma cast_congr (h : Host) (T : CType) (a b : Z) :
  a mod modulus (sizeof h T) = b mod modulus (sizeof h T) ->
  cast h T a = cast h T b.
Proof.
  intros H. unfold cast, to_signed, to_unsigned. now rewrite H.
Qed.

Lemma cast_load_signed (h : Host) (T : CType) (bs : list byte) :
  cast h T (load_signed h (sizeof h T) bs) = cast h T (object_number h bs).
Proof. apply cast_congr. unfold load_signed. apply to_signed_mod. Qed.

Ltac by_sizeof h T :=
  let Hs := fresh "Hs" in
  destruct (sizeof_cases h T) as [Hs|[Hs|[Hs|Hs]]].

Lemma wv_serialize_scalar_appends (h : Host) (T : CType) (buf : WvBuf.t) (t : Z) :
  wv_serialize_scalar h T buf t = Some (WvBuf.put buf (wire_bytes h T t)).
Proof.
  unfold wire_bytes, wv_serialize_scalar, put_object, WvBuf.put, WvBuf.empty.
  by_sizeof h T; rewrite Hs; reflexivity.
Qed.

Lemma length_wire_bytes (h : Host) (T : CType) (t : Z) :
  length (wire_bytes h T t) = sizeof h T.
Proof.
  unfold wire_bytes, wv_serialize_scalar, put_object, WvBuf.put, WvBuf.empty.
  by_sizeof h T; rewrite Hs; cbn [Nat.eqb app];
    rewrite length_firstn, length_object_bytes; reflexivity.
Qed.

(** The paths that do produce network byte order: one and four bytes on
    every host, two bytes on a little-endian host, eight bytes on a
    big-endian host. *)
Lemma wire_bytes_network_order (h : Host) (T : CType) (t : Z) :
  (sizeof h T = 8%nat -> byte_order h = BigEndian) ->
  (sizeof h T = 2%nat -> byte_order h = LittleEndian) ->
  wire_bytes h T t = be_bytes (sizeof h T) t.
Proof.
  intros H8 H2.
  unfold wire_bytes, wv_serialize_scalar, put_object, WvBuf.put, WvBuf.empty.
  by_sizeof h T; rewrite Hs; cbn [Nat.eqb app].
  - unfold object_bytes, be_bytes. destruct (byte_order h); reflexivity.
  - apply put_htons_little_endian; auto.
  - rewrite object_bytes_htonl. apply firstn_all2.
    rewrite length_be_bytes. lia.
  - unfold object_bytes. rewrite (H8 Hs). apply firstn_all2.
    rewrite length_be_bytes. lia.
Qed.

Lemma wire_bytes_host_order (h : Host) (T : CType) (t : Z) :
  sizeof h T = 8%nat -> wire_bytes h T t = object_bytes h 8 t.
Proof.
  intros Hs.
  unfold wire_bytes, wv_serialize_scalar, put_object, WvBuf.put, WvBuf.empty.
  rewrite Hs. cbn [Nat.eqb app]. apply firstn_all2.
  rewrite length_object_bytes. lia.
Qed.

Lemma wire_bytes_short_big_endian (h : Host) (T : CType) (t : Z) :
  sizeof h T = 2%nat -> byte_order h = BigEndian ->
  wire_bytes h T t = [x00; x00].
Proof.
  intros Hs E.
  unfold wire_bytes, wv_serialize_scalar, put_object, WvBuf.put, WvBuf.empty.
  rewrite Hs. cbn [Nat.eqb app]. now apply put_htons_big_endian.
Qed.

Lemma not_underflow (bs rest : list byte) (n : nat) :
  length bs = n -> (WvBuf.used (bs ++ rest) <? n)%nat = false.
Proof.
  intros <-. unfold WvBuf.used. rewrite length_app.
  apply Nat.ltb_ge. lia.
Qed.

(** Decoding [w] bytes: network order on the two- and four-byte paths (and
    trivially for one byte), the order of the host on the eight-byte path. *)
Lemma wv_deserialize_scalar_bytes (h : Host) (T : CType) (bs rest : list byte) :
  length bs = sizeof h T ->
  wv_deserialize_scalar h T (bs ++ rest) =
    Some (cast h T (if (sizeof h T =? 8)%nat then object_number h bs
                    else be_number bs), rest).
Proof.
  intros L. unfold wv_deserialize_scalar.
  rewrite (not_underflow bs rest _ L).
  by_sizeof h T; rewrite Hs in L |- *; cbn [Nat.eqb];
    rewrite (get_app bs rest _ L); cbn [bind].
  - rewrite <- Hs, cast_load_signed. do 3 f_equal.
    destruct bs as [|b [|? ?]]; try discriminate.
    unfold object_number, be_number. destruct (byte_order h); reflexivity.
  - now rewrite ntohs_load.
  - now rewrite ntohl_load.
  - now rewrite <- Hs, cast_load_signed.
Qed.

(** The round trip of a scalar, wherever the two-byte path is not taken on
    a big-endian host. *)
Lemma wv_deserialize_scalar_wire (h : Host) (T : CType) (v : Z) (rest : list byte) :
  representable h T v ->
  (sizeof h T = 2%nat -> byte_order h = LittleEndian) ->
  wv_deserialize_scalar h T (wire_bytes h T v ++ rest) = Some (v, rest).
Proof.
  intros Hv H2.
  rewrite wv_deserialize_scalar_bytes by apply length_wire_bytes.
  do 2 f_equal.
  destruct (sizeof h T =? 8)%nat eqn:E8.
  - apply Nat.eqb_eq in E8. rewrite (wire_bytes_host_order h T v E8).
    rewrite object_number_bytes, <- E8.
    apply cast_representable; [apply sizeof_pos | exact Hv].
  - apply Nat.eqb_neq in E8.
    rewrite wire_bytes_network_order by (auto || contradiction).
    rewrite be_number_be_bytes.
    apply cast_representable; [apply sizeof_pos | exact Hv].
Qed.

(** On a big-endian host every two-byte value is written as two zero bytes
    and read back as 0. *)
Lemma wv_deserialize_short_big_endian (h : Host) (T : CType) (v : Z) (rest : list byte) :
  sizeof h T = 2%nat -> byte_order h = BigEndian ->
  wv_deserialize_scalar h T (wire_bytes h T v ++ rest) = Some (0, rest).
Proof.
  intros Hs E.
  rewrite wv_deserialize_scalar_bytes by apply length_wire_bytes.
  rewrite (wire_bytes_short_big_endian h T v Hs E), Hs. cbn [Nat.eqb].
  change (be_number [x00; x00]) with 0.
  unfold cast, to_signed, to_unsigned. pose proof (modulus_pos (sizeof h T)).
  rewrite Z.mod_0_l by lia.
  assert (0 < modulus (sizeof h T) / 2).
  { rewrite Hs. reflexivity. }
  destruct (is_signed h T); [|reflexivity].
  destruct (0 <? modulus (sizeof h T) / 2) eqn:L; [reflexivity|].
  apply Z.ltb_ge in L. lia.
Qed.

(** ** Text *)

Lemma is_nul_false (b : byte) : is_nul b = false <-> b <> x00.
Proof.
  unfold is_nul. split.
  - apply Byte.eqb_false.
  - intros H. destruct (Byte.eqb b x00) eqn:E; [|reflexivity].
    apply Byte.byte_dec_bl in E. contradiction.
Qed.

Lemma c_str_no_nul (chars : list byte) :
  Forall (fun b => b <> x00) (c_str chars).
Proof.
  induction chars as [|c rest IH]; simpl; [constructor|].
  destruct (is_nul c) eqn:E; constructor; [|exact IH].
  now apply is_nul_false.
Qed.

Lemma c_str_id (t : list byte) :
  Forall (fun b => b <> x00) t -> c_str t = t.
Proof.
  induction 1 as [|c rest Hc _ IH]; simpl; [reflexivity|].
  apply is_nul_false in Hc. now rewrite Hc, IH.
Qed.

Lemma find_nul_terminator (t rest : list byte) :
  Forall (fun b => b <> x00) t ->
  find_nul (t ++ x00 :: rest) = Some (length t).
Proof.
  induction 1 as [|c t' Hc _ IH]; simpl; [reflexivity|].
  apply is_nul_false in Hc. now rewrite Hc, IH.
Qed.

Lemma _wv_serialize_WvString_bytes (buf : WvBuf.t) (s : WvString) :
  _wv_serialize_WvString buf s = buf ++ cstr s ++ [x00].
Proof.
  unfold _wv_serialize_WvString, putstr, WvBuf.put.
  destruct s; simpl; [reflexivity|].
  now rewrite <- app_assoc.
Qed.

Lemma _wv_deserialize_WvString_bytes (t rest : list byte) :
  Forall (fun b => b <> x00) t ->
  _wv_deserialize_WvString (t ++ x00 :: rest) = Some (WvStr t, rest).
Proof.
  intros Ht. unfold _wv_deserialize_WvString.
  rewrite (find_nul_terminator t rest Ht).
  replace (t ++ x00 :: rest) with ((t ++ [x00]) ++ rest)
    by (rewrite <- app_assoc; reflexivity).
  rewrite get_app by (rewrite length_app; simpl; lia).
  cbn [bind]. rewrite firstn_app, Nat.sub_diag, firstn_all. simpl.
  now rewrite app_nil_r.
Qed.

(** ** The prefix of a composite: a [size_t] *)

Lemma size_t_unsigned (h : Host) : is_signed h (size_t h) = false.
Proof. unfold size_t. destruct (data_model h); reflexivity. Qed.

Lemma size_t_not_short (h : Host) :
  sizeof h (size_t h) = 2%nat -> byte_order h = LittleEndian.
Proof. destruct (sizeof_size_t h) as [E|E]; rewrite E; discriminate. Qed.

Lemma size_t_representable (h : Host) (n : nat) :
  Z.of_nat n < modulus (sizeof h (size_t h)) ->
  representable h (size_t h) (Z.of_nat n).
Proof. intros H. unfold representable. rewrite size_t_unsigned. lia. Qed.

Lemma cast_size_t (h : Host) (n : nat) :
  Z.of_nat n < modulus (sizeof h (size_t h)) ->
  cast h (size_t h) (Z.of_nat n) = Z.of_nat n.
Proof.
  intros H. unfold cast. rewrite size_t_unsigned.
  apply Z.mod_small. lia.
Qed.

Lemma wv_deserialize_size_t (h : Host) (n : nat) (rest : list byte) :
  Z.of_nat n < modulus (sizeof h (size_t h)) ->
  wv_deserialize h (size_t h) (wire_bytes h (size_t h) (Z.of_nat n) ++ rest)
  = Some (Z.of_nat n, rest).
Proof.
  intros H. apply wv_deserialize_scalar_wire.
  - now apply size_t_representable.
  - apply size_t_not_short.
Qed.

Lemma wv_deserialize_scalar_underflow (h : Host) (T : CType) (buf : WvBuf.t) :
  (WvBuf.used buf < sizeof h T)%nat ->
  wv_deserialize_scalar h T buf = Some (0, buf).
Proof.
  intros H. unfold wv_deserialize_scalar.
  replace (WvBuf.used buf <? sizeof h T)%nat with true
    by (symmetry; apply Nat.ltb_lt; exact H).
  reflexivity.
Qed.

(** ** Lists *)

Section WvListFacts.

Context {T : Type}.
Variable serialize_T : WvBuf.t -> T -> option WvBuf.t.
Variable deserialize_T : WvBuf.t -> option (T * WvBuf.t).
Variable encoding : T -> list byte.

Lemma serialize_each_appends (lst : list T) (buf : WvBuf.t) :
  (forall t b, In t lst -> serialize_T b t = Some (WvBuf.put b (encoding t))) ->
  serialize_each serialize_T buf lst
  = Some (buf ++ concat (map encoding lst)).
Proof.
  revert buf. induction lst as [|x rest IH]; intros buf H; simpl.
  - now rewrite app_nil_r.
  - rewrite H by (left; reflexivity). cbn [bind].
    rewrite IH by (intros; apply H; right; assumption).
    unfold WvBuf.put. now rewrite <- app_assoc.
Qed.

Lemma deserialize_each_appends (lst acc : list T) (rest : list byte) :
  (forall t r, In t lst -> deserialize_T (encoding t ++ r) = Some (t, r)) ->
  deserialize_each deserialize_T (length lst)
    (concat (map encoding lst) ++ rest) acc
  = Some (acc ++ lst, rest).
Proof.
  revert acc. induction lst as [|x l IH]; intros acc H; simpl.
  - now rewrite app_nil_r.
  - rewrite <- app_assoc, H by (left; reflexivity). cbn [bind].
    rewrite IH by (intros; apply H; right; assumption).
    now rewrite <- app_assoc.
Qed.

End WvListFacts.

(** ** The backslash codec *)

Module WvBackslashFacts.

Import WvBackslash.

Lemma encode_bytes_app (a b : list byte) :
  encode_bytes (a ++ b) = encode_bytes a ++ encode_bytes b.
Proof. unfold encode_bytes. apply flat_map_app. Qed.

(** Feeding a decoder two chunks is feeding it their concatenation: the
    state between the calls is all that it carries over. *)
Lemma decode_bytes_app (st : DecoderState) (a b : list byte) :
  decode_bytes st (a ++ b) =
    let '(st1, out1) := decode_bytes st a in
    let '(st2, out2) := decode_bytes st1 b in
    (st2, out1 ++ out2).
Proof.
  revert st. induction a as [|x a IH]; intros st; simpl.
  - destruct (decode_bytes st b); reflexivity.
  - destruct (decode_byte st x) as [st1 o1].
    rewrite IH.
    destruct (decode_bytes st1 a) as [st2 o2].
    destruct (decode_bytes st2 b) as [st3 o3].
    now rewrite app_assoc.
Qed.

Lemma decode_encode_byte (b : byte) (rest : list byte) :
  decode_bytes PASSTHROUGH (encode_byte b ++ rest) =
    let '(st, out) := decode_bytes PASSTHROUGH rest in (st, b :: out).
Proof.
  destruct b; cbn; destruct (decode_bytes PASSTHROUGH rest); reflexivity.
Qed.

(** Decoding undoes encoding. *)
Lemma decode_encode (x : list byte) :
  decode_bytes PASSTHROUGH (encode_bytes x) = (PASSTHROUGH, x).
Proof.
  induction x as [|b x IH]; [reflexivity|].
  unfold encode_bytes in *. cbn [flat_map].
  now rewrite decode_encode_byte, IH.
Qed.

(** ... however the encoded bytes are split into chunks, when the chunks
    are written without a flush in between. *)
Lemma write_each_decoder_concat (st : DecoderState) (chunks : list (list byte)) :
  let '(st', results) := write_each WvBackslashDecoder false st chunks in
  decode_bytes st (concat chunks) = (st', concat results).
Proof.
  revert st. induction chunks as [|c chunks IH]; intros st; [reflexivity|].
  cbn [write_each concat]. unfold write. cbn [encode WvBackslashDecoder andb].
  rewrite decode_bytes_app.
  destruct (decode_bytes st c) as [st1 o1]. cbn [andb].
  specialize (IH st1).
  destruct (write_each WvBackslashDecoder false st1 chunks) as [st2 results].
  rewrite IH. reflexivity.
Qed.

End WvBackslashFacts.

(** ** Composite values *)

Lemma _wv_serialize_WvBuf_bytes (h : Host) (buf inbuf : WvBuf.t) :
  _wv_serialize_WvBuf h buf inbuf
  = Some (buf ++ wire_bytes h (size_t h) (Z.of_nat (WvBuf.used inbuf)) ++ inbuf,
          inbuf).
Proof.
  unfold _wv_serialize_WvBuf, wv_serialize, _wv_serialize.
  rewrite wv_serialize_scalar_appends. cbn [bind].
  rewrite peek_all. unfold WvBuf.used at 2. rewrite firstn_all.
  unfold WvBuf.put. now rewrite <- app_assoc.
Qed.

Lemma WvDeserialize_WvBuf_go_bytes (h : Host) (inbuf rest : list byte) :
  Z.of_nat (WvBuf.used inbuf) < modulus (sizeof h (size_t h)) ->
  WvDeserialize_WvBuf_go h
    (wire_bytes h (size_t h) (Z.of_nat (WvBuf.used inbuf)) ++ inbuf ++ rest)
  = Some (inbuf, rest).
Proof.
  intros H. unfold WvDeserialize_WvBuf_go.
  rewrite wv_deserialize_size_t by exact H. cbn [bind].
  rewrite Nat2Z.id. unfold WvBuf.merge, WvBuf.used.
  rewrite get_app by reflexivity. reflexivity.
Qed.

Lemma _wv_serialize_WvList_bytes {T : Type}
    (serialize_T : WvBuf.t -> T -> option WvBuf.t) (encoding : T -> list byte)
    (h : Host) (buf : WvBuf.t) (lst : list T) :
  Z.of_nat (length lst) < modulus (sizeof h (size_t h)) ->
  (forall t b, In t lst -> serialize_T b t = Some (WvBuf.put b (encoding t))) ->
  _wv_serialize_WvList serialize_T h buf lst
  = Some (buf ++ wire_bytes h (size_t h) (Z.of_nat (length lst))
              ++ concat (map encoding lst)).
Proof.
  intros HN Hser. unfold _wv_serialize_WvList, _wv_serialize.
  rewrite cast_size_t by exact HN.
  rewrite wv_serialize_scalar_appends. cbn [bind].
  rewrite (serialize_each_appends serialize_T encoding) by exact Hser.
  unfold WvBuf.put. now rewrite <- app_assoc.
Qed.

Lemma WvDeserialize_WvList_go_bytes {T : Type}
    (deserialize_T : WvBuf.t -> option (T * WvBuf.t)) (encoding : T -> list byte)
    (h : Host) (lst : list T) (rest : list byte) :
  Z.of_nat (length lst) < modulus (sizeof h (size_t h)) ->
  (forall t r, In t lst -> deserialize_T (encoding t ++ r) = Some (t, r)) ->
  WvDeserialize_WvList_go deserialize_T h
    (wire_bytes h (size_t h) (Z.of_nat (length lst))
       ++ concat (map encoding lst) ++ rest)
  = Some (lst, rest).
Proof.
  intros HN Hde. unfold WvDeserialize_WvList_go.
  rewrite wv_deserialize_size_t by exact HN. cbn [bind].
  rewrite Nat2Z.id.
  now rewrite (deserialize_each_appends deserialize_T encoding).
Qed.

(** * The claims *)

(** C1 (violated by the code).  The claim: for every integer type of width
    1, 2, 4 or 8, serialization appends exactly that many bytes, the
    big-endian representation of the value, and deserialization reads them
    as big-endian.  The eight-byte path copies the object as it lies in
    memory: on a little-endian host [long long 1] is written least
    significant byte first, not as the big-endian bytes of 1, and the
    big-endian bytes of 1 are read back as [2^56]. *)
Theorem C1_long_long_in_host_order :
  wv_serialize_scalar x86_64 LongLong WvBuf.empty 1
    = Some [x01; x00; x00; x00; x00; x00; x00; x00]
  /\ be_bytes 8 1 = [x00; x00; x00; x00; x00; x00; x00; x01]
  /\ wv_deserialize_scalar x86_64 LongLong
       [x00; x00; x00; x00; x00; x00; x00; x01]
     = Some (72057594037927936, WvBuf.empty).
Proof. repeat split; vm_compute; reflexivity. Qed.

(** C2 (violated by the code).  The claim: serializing any representable
    value of any scalar type and deserializing it gives the value back.  The
    two-byte path stores [htons(t)] in a four-byte integer and copies its
    first two bytes: on a big-endian host these are zero, and the [short]
    1 comes back as 0. *)
Theorem C2_short_lost_on_big_endian :
  representable ppc32 Short 1
  /\ wv_serialize_scalar ppc32 Short WvBuf.empty 1 = Some [x00; x00]
  /\ wv_deserialize_scalar ppc32 Short [x00; x00] = Some (0, WvBuf.empty).
Proof.
  split; [|split; vm_compute; reflexivity].
  unfold representable. cbn [is_signed sizeof].
  change (modulus 2 / 2) with 32768. lia.
Qed.

(** C3.  For every scalar type [T] and every buffer holding fewer unread
    bytes than [sizeof(T)], deserializing [T] returns the placeholder 0 and
    consumes nothing: the buffer, and so its count of unread bytes, is
    unchanged. *)
Theorem C3_scalar_underflow (h : Host) (T : CType) (buf : WvBuf.t) :
  (WvBuf.used buf < sizeof h T)%nat ->
  exists buf',
    wv_deserialize h T buf = Some (0, buf')
    /\ buf' = buf
    /\ WvBuf.used buf' = WvBuf.used buf.
Proof.
  intros H. exists buf. split; [|split; reflexivity].
  now apply wv_deserialize_scalar_underflow.
Qed.

Lemma C3_scalar_underflow_witness :
  (WvBuf.used [x01; x02; x03] < sizeof x86_64 Int)%nat
  /\ exists buf',
       wv_deserialize x86_64 Int [x01; x02; x03] = Some (0, buf')
       /\ buf' = [x01; x02; x03]
       /\ WvBuf.used buf' = WvBuf.used [x01; x02; x03].
Proof.
  split; [simpl; lia | apply (C3_scalar_underflow x86_64 Int); simpl; lia].
Defined.

(** C6.  Serializing a text appends its content bytes, none of which is
    zero, and then a single zero byte; the null text and the empty text
    both append the zero byte alone. *)
Theorem C6_text_bytes (buf : WvBuf.t) (s : WvString) :
  _wv_serialize_WvString buf s = buf ++ cstr s ++ [x00]
  /\ Forall (fun b => b <> x00) (cstr s)
  /\ _wv_serialize_WvString buf WvNull = buf ++ [x00]
  /\ _wv_serialize_WvString buf (WvStr []) = buf ++ [x00].
Proof.
  split; [apply _wv_serialize_WvString_bytes|].
  split; [|split; rewrite _wv_serialize_WvString_bytes; reflexivity].
  destruct s; [constructor | apply c_str_no_nul].
Qed.

(** C7.  For a text [t] with no zero byte, serializing [t] and then
    deserializing a text from the buffer returns [t], and leaves what
    followed it; the empty text comes back as the empty text. *)
Theorem C7_text_round_trip (t rest : list byte) :
  Forall (fun b => b <> x00) t ->
  _wv_deserialize_WvString (_wv_serialize_WvString WvBuf.empty (WvStr t) ++ rest)
    = Some (WvStr t, rest)
  /\ _wv_deserialize_WvString (_wv_serialize_WvString WvBuf.empty (WvStr []))
    = Some (WvStr [], WvBuf.empty).
Proof.
  intros Ht. split; [|reflexivity].
  rewrite _wv_serialize_WvString_bytes. cbn [cstr WvBuf.empty app].
  rewrite (c_str_id t Ht), <- app_assoc.
  now apply _wv_deserialize_WvString_bytes.
Qed.

Lemma C7_text_round_trip_witness :
  Forall (fun b => b <> x00) [x61; x62; x63]
  /\ _wv_deserialize_WvString
       (_wv_serialize_WvString WvBuf.empty (WvStr [x61; x62; x63]) ++ [xff])
     = Some (WvStr [x61; x62; x63], [xff])
  /\ _wv_deserialize_WvString (_wv_serialize_WvString WvBuf.empty (WvStr []))
     = Some (WvStr [], WvBuf.empty).
Proof.
  assert (H : Forall (fun b => b <> x00) [x61; x62; x63])
    by (repeat constructor; discriminate).
  split; [exact H | apply (C7_text_round_trip [x61; x62; x63] [xff] H)].
Defined.

(** C4.  The encoder, written the five plain strings of the test one at a
    time, hands on the five escaped strings; a byte is escaped, as a
    backslash and its mnemonic, exactly when it is the newline, the
    backspace or the backslash, and is copied otherwise; what a chunk is
    encoded to does not depend on the chunks written before it. *)
Theorem C4_backslash_encoder :
  snd (write_each WvBackslash.WvBackslashEncoder true tt WvBackslash.plain)
    = WvBackslash.escaped
  /\ (forall b : byte,
        (b = WvBackslash.newline
         /\ WvBackslash.encode_byte b
            = [WvBackslash.backslash; WvBackslash.letter_n])
        \/ (b = WvBackslash.backspace
            /\ WvBackslash.encode_byte b
               = [WvBackslash.backslash; WvBackslash.letter_b])
        \/ (b = WvBackslash.backslash
            /\ WvBackslash.encode_byte b
               = [WvBackslash.backslash; WvBackslash.backslash])
        \/ WvBackslash.encode_byte b = [b])
  /\ (forall (prior : list (list byte)) (chunk : list byte),
        write WvBackslash.WvBackslashEncoder true
          (fst (write_each WvBackslash.WvBackslashEncoder true tt prior)) chunk
        = (tt, flat_map WvBackslash.encode_byte chunk))
  /\ (forall a b : list byte,
        WvBackslash.encode_bytes (a ++ b)
        = WvBackslash.encode_bytes a ++ WvBackslash.encode_bytes b).
Proof.
  split; [vm_compute; reflexivity|].
  split; [intros b; destruct b; vm_compute; auto 6|].
  split; [|apply WvBackslashFacts.encode_bytes_app].
  intros prior chunk.
  destruct (fst (write_each WvBackslash.WvBackslashEncoder true tt prior)).
  unfold write. cbn. now rewrite app_nil_r.
Qed.

(** C5.  The decoder, written the five escaped strings one at a time, hands
    on the five plain strings.  A backslash that ends a chunk is retained as
    the state of the decoder and emitted with nothing, and the next call
    resolves it; two backslashes arriving as a chunk of their own decode to
    one; [flush] with a pending backslash emits it literally. *)
Theorem C5_backslash_decoder :
  write_each WvBackslash.WvBackslashDecoder true
    WvBackslash.PASSTHROUGH WvBackslash.escaped
    = (WvBackslash.PASSTHROUGH, WvBackslash.plain)
  /\ (forall (st : WvBackslash.DecoderState) (chunk : list byte),
        WvBackslash.decode_bytes st (chunk ++ [WvBackslash.backslash])
        = match WvBackslash.decode_bytes st chunk with
          | (WvBackslash.PASSTHROUGH, out) =>
              (WvBackslash.PENDING_ESCAPE, out)
          | (WvBackslash.PENDING_ESCAPE, out) =>
              (WvBackslash.PASSTHROUGH, out ++ [WvBackslash.backslash])
          end)
  /\ (forall (st : WvBackslash.DecoderState) (a b : list byte),
        WvBackslash.decode_bytes st (a ++ b)
        = let '(st1, out1) := WvBackslash.decode_bytes st a in
          let '(st2, out2) := WvBackslash.decode_bytes st1 b in
          (st2, out1 ++ out2))
  /\ write_each WvBackslash.WvBackslashDecoder false WvBackslash.PASSTHROUGH
       [[WvBackslash.backslash]; [WvBackslash.letter_n]]
     = (WvBackslash.PASSTHROUGH, [[]; [WvBackslash.newline]])
  /\ write WvBackslash.WvBackslashDecoder false WvBackslash.PASSTHROUGH
       [WvBackslash.backslash; WvBackslash.backslash]
     = (WvBackslash.PASSTHROUGH, [WvBackslash.backslash])
  /\ flush WvBackslash.WvBackslashDecoder WvBackslash.PENDING_ESCAPE
     = (WvBackslash.PASSTHROUGH, [WvBackslash.backslash], true).
Proof.
  split; [vm_compute; reflexivity|].
  split.
  { intros st chunk. rewrite WvBackslashFacts.decode_bytes_app.
    destruct (WvBackslash.decode_bytes st chunk) as [[|] out]; cbn;
      now rewrite ?app_nil_r. }
  split; [apply WvBackslashFacts.decode_bytes_app|].
  repeat split; vm_compute; reflexivity.
Qed.

(** C8.  Serializing a list of [N] elements appends the count [N] as a
    [size_t], then the encodings of the elements in the order of the list;
    deserializing a list from these bytes returns a list equal to the
    original, element by element and in order, and leaves what followed;
    the empty list is written as the count 0 alone and read back as the
    empty list.  The elements are those whose own serializer appends their
    encoding and whose own deserializer reads it back. *)
Theorem C8_list_round_trip {T : Type}
    (serialize_T : WvBuf.t -> T -> option WvBuf.t)
    (deserialize_T : WvBuf.t -> option (T * WvBuf.t))
    (encoding : T -> list byte)
    (h : Host) (buf rest : WvBuf.t) (lst : list T) :
  Z.of_nat (length lst) < modulus (sizeof h (size_t h)) ->
  (forall t b, In t lst -> serialize_T b t = Some (WvBuf.put b (encoding t))) ->
  (forall t r, In t lst -> deserialize_T (encoding t ++ r) = Some (t, r)) ->
  let count := wire_bytes h (size_t h) (Z.of_nat (length lst)) in
  _wv_serialize_WvList serialize_T h buf lst
    = Some (buf ++ count ++ concat (map encoding lst))
  /\ length count = sizeof h (size_t h)
  /\ wv_deserialize h (size_t h) (count ++ concat (map encoding lst) ++ rest)
     = Some (Z.of_nat (length lst), concat (map encoding lst) ++ rest)
  /\ WvDeserialize_WvList_go deserialize_T h
       (count ++ concat (map encoding lst) ++ rest)
     = Some (lst, rest)
  /\ _wv_serialize_WvList serialize_T h buf []
     = Some (buf ++ wire_bytes h (size_t h) 0)
  /\ WvDeserialize_WvList_go deserialize_T h (wire_bytes h (size_t h) 0 ++ rest)
     = Some ([], rest).
Proof.
  intros HN Hser Hde count. subst count.
  assert (H0 : Z.of_nat (@length T []) < modulus (sizeof h (size_t h)))
    by apply modulus_pos.
  split; [now apply _wv_serialize_WvList_bytes|].
  split; [apply length_wire_bytes|].
  split; [now apply wv_deserialize_size_t|].
  split; [now apply WvDeserialize_WvList_go_bytes|].
  split.
  - rewrite (_wv_serialize_WvList_bytes serialize_T encoding h buf [] H0)
      by (intros ? ? []).
    simpl. now rewrite app_nil_r.
  - apply (WvDeserialize_WvList_go_bytes deserialize_T encoding h [] rest H0).
    intros ? ? [].
Qed.

Lemma C8_list_round_trip_witness :
  let h := x86_64 in
  let lst := [1; -2; 3] in
  let encoding := wire_bytes h Int in
  let count := wire_bytes h (size_t h) 3 in
  Z.of_nat (length lst) < modulus (sizeof h (size_t h))
  /\ _wv_serialize_WvList (_wv_serialize h Int) h [] lst
     = Some (count ++ concat (map encoding lst))
  /\ WvDeserialize_WvList_go (wv_deserialize h Int) h
       (count ++ concat (map encoding lst) ++ [xff])
     = Some (lst, [xff]).
Proof.
  intros h lst encoding count.
  assert (HN : Z.of_nat (length lst) < modulus (sizeof h (size_t h)))
    by (vm_compute; reflexivity).
  assert (Hser : forall t b, In t lst ->
            _wv_serialize h Int b t = Some (WvBuf.put b (encoding t)))
    by (intros t b _; apply wv_serialize_scalar_appends).
  assert (Hde : forall t r, In t lst ->
            wv_deserialize h Int (encoding t ++ r) = Some (t, r)).
  { intros t r Ht. apply wv_deserialize_scalar_wire; [|discriminate].
    unfold representable. cbn [is_signed sizeof].
    change (modulus 4 / 2) with 2147483648.
    destruct Ht as [<-|[<-|[<-|[]]]]; lia. }
  destruct (C8_list_round_trip (_wv_serialize h Int) (wv_deserialize h Int)
              encoding h [] [xff] lst HN Hser Hde)
    as (Hs & _ & _ & Hd & _).
  split; [exact HN|]. split; [exact Hs | exact Hd].
Defined.

(** C9.  Serializing a nested buffer appends the number of its unread bytes
    as a [size_t], then those bytes, read with [peek] and so left in the
    source buffer; deserializing a buffer from the result returns a new
    buffer whose content is those bytes, and leaves what followed. *)
Theorem C9_buffer_round_trip (h : Host) (buf inbuf rest : WvBuf.t) :
  Z.of_nat (WvBuf.used inbuf) < modulus (sizeof h (size_t h)) ->
  let size := wire_bytes h (size_t h) (Z.of_nat (WvBuf.used inbuf)) in
  _wv_serialize_WvBuf h buf inbuf = Some (buf ++ size ++ inbuf, inbuf)
  /\ length size = sizeof h (size_t h)
  /\ wv_deserialize h (size_t h) (size ++ inbuf ++ rest)
     = Some (Z.of_nat (WvBuf.used inbuf), inbuf ++ rest)
  /\ WvDeserialize_WvBuf_go h (size ++ inbuf ++ rest) = Some (inbuf, rest).
Proof.
  intros HN size. subst size.
  split; [apply _wv_serialize_WvBuf_bytes|].
  split; [apply length_wire_bytes|].
  split; [now apply wv_deserialize_size_t|].
  now apply WvDeserialize_WvBuf_go_bytes.
Qed.

Lemma C9_buffer_round_trip_witness :
  let inbuf := [x0a; x00; xfe] in
  let size := [x00; x00; x00; x00; x00; x00; x00; x03] in
  Z.of_nat (WvBuf.used inbuf) < modulus (sizeof s390x (size_t s390x))
  /\ _wv_serialize_WvBuf s390x [x2a] inbuf
     = Some ([x2a] ++ size ++ inbuf, inbuf)
  /\ WvDeserialize_WvBuf_go s390x (size ++ inbuf ++ [xff]) = Some (inbuf, [xff]).
Proof.
  intros inbuf size.
  assert (HN : Z.of_nat (WvBuf.used inbuf) < modulus (sizeof s390x (size_t s390x)))
    by (vm_compute; reflexivity).
  destruct (C9_buffer_round_trip s390x [x2a] inbuf [xff] HN) as (Hs & _ & _ & Hd).
  split; [exact HN|]. split; [exact Hs | exact Hd].
Defined.

(** C10.  On a buffer holding fewer unread bytes than a [size_t], the
    length or count reads as the placeholder 0 and nothing is consumed: the
    nested-buffer deserializer returns a new empty buffer and the list
    deserializer a new empty list, no error; these are the values that the
    serialized empty buffer and the serialized empty list are read back
    to. *)
Theorem C10_composite_underflow {T : Type}
    (serialize_T : WvBuf.t -> T -> option WvBuf.t)
    (deserialize_T : WvBuf.t -> option (T * WvBuf.t))
    (h : Host) (buf : WvBuf.t) :
  (WvBuf.used buf < sizeof h (size_t h))%nat ->
  wv_deserialize h (size_t h) buf = Some (0, buf)
  /\ WvDeserialize_WvBuf_go h buf = Some (WvBuf.empty, buf)
  /\ WvDeserialize_WvList_go deserialize_T h buf = Some ([], buf)
  /\ (exists wire,
        _wv_serialize_WvBuf h WvBuf.empty WvBuf.empty = Some (wire, WvBuf.empty)
        /\ WvDeserialize_WvBuf_go h wire = Some (WvBuf.empty, WvBuf.empty))
  /\ (exists wire,
        _wv_serialize_WvList serialize_T h WvBuf.empty [] = Some wire
        /\ WvDeserialize_WvList_go deserialize_T h wire = Some ([], WvBuf.empty)).
Proof.
  intros H.
  pose proof (wv_deserialize_scalar_underflow h (size_t h) buf H) as Hu.
  assert (H0 : Z.of_nat 0 < modulus (sizeof h (size_t h))) by apply modulus_pos.
  split; [exact Hu|].
  split.
  { unfold WvDeserialize_WvBuf_go, wv_deserialize, WvDeserialize_go, _wv_deserialize.
    rewrite Hu. reflexivity. }
  split.
  { unfold WvDeserialize_WvList_go, wv_deserialize, WvDeserialize_go, _wv_deserialize.
    rewrite Hu. reflexivity. }
  split.
  - eexists. split; [apply _wv_serialize_WvBuf_bytes|].
    cbn [WvBuf.empty WvBuf.used length app].
    apply (WvDeserialize_WvBuf_go_bytes h [] [] H0).
  - eexists. split.
    + apply (_wv_serialize_WvList_bytes serialize_T (fun _ => [])); [exact H0|].
      intros ? ? [].
    + cbn [WvBuf.empty length map concat app].
      apply (WvDeserialize_WvList_go_bytes deserialize_T (fun _ => []) h [] []);
        [exact H0 | intros ? ? []].
Qed.

Lemma C10_composite_underflow_witness :
  let buf := [x00; x00; x01] in
  (WvBuf.used buf < sizeof x86_64 (size_t x86_64))%nat
  /\ WvDeserialize_WvBuf_go x86_64 buf = Some (WvBuf.empty, buf)
  /\ WvDeserialize_WvList_go (wv_deserialize x86_64 Int) x86_64 buf
     = Some ([], buf).
Proof.
  intros buf.
  assert (H : (WvBuf.used buf < sizeof x86_64 (size_t x86_64))%nat)
    by (simpl; lia).
  destruct (C10_composite_underflow (_wv_serialize x86_64 Int)
              (wv_deserialize x86_64 Int) x86_64 buf H) as (_ & Hb & Hl & _).
  split; [exact H|]. split; [exact Hb | exact Hl].
Defined.

(** * Further properties of the serializers *)

Lemma cast_range (h : Host) (T : CType) (z : Z) : representable h T (cast h T z).
Proof.
  unfold representable, cast.
  pose proof (modulus_pos (sizeof h T)) as Hm.
  pose proof (modulus_even (sizeof h T) (sizeof_pos h T)) as He.
  pose proof (to_unsigned_range (sizeof h T) z) as Hu.
  destruct (is_signed h T); [|exact Hu].
  unfold to_signed.
  destruct (to_unsigned (sizeof h T) z <? modulus (sizeof h T) / 2) eqn:E.
  - apply Z.ltb_lt in E. lia.
  - apply Z.ltb_ge in E. lia.
Qed.

Lemma representable_0 (h : Host) (T : CType) : representable h T 0.
Proof.
  unfold representable.
  pose proof (modulus_pos (sizeof h T)) as Hm.
  pose proof (modulus_even (sizeof h T) (sizeof_pos h T)) as He.
  destruct (is_signed h T); lia.
Qed.

Lemma representable_min (h : Host) (T : CType) : representable h T (min_value h T).
Proof.
  unfold representable, min_value.
  pose proof (modulus_pos (sizeof h T)) as Hm.
  pose proof (modulus_even (sizeof h T) (sizeof_pos h T)) as He.
  destruct (is_signed h T); lia.
Qed.

Lemma representable_max (h : Host) (T : CType) : representable h T (max_value h T).
Proof.
  unfold representable, max_value.
  pose proof (modulus_pos (sizeof h T)) as Hm.
  pose proof (modulus_even (sizeof h T) (sizeof_pos h T)) as He.
  destruct (is_signed h T); lia.
Qed.

(** Every buffer is either too short for a [T] or starts with the bytes of
    one. *)
Lemma buffer_split (buf : WvBuf.t) (n : nat) :
  (WvBuf.used buf < n)%nat
  \/ exists bs rest, buf = bs ++ rest /\ length bs = n.
Proof.
  destruct (Nat.lt_ge_cases (WvBuf.used buf) n) as [H|H]; [left; exact H|].
  right. exists (firstn n buf), (skipn n buf). split.
  - symmetry. apply firstn_skipn.
  - rewrite length_firstn. unfold WvBuf.used in H. lia.
Qed.

(** Deserializing at a type of the same width what was serialized at
    another converts the value as a cast does. *)
Lemma wv_deserialize_scalar_reinterpret (h1 h2 : Host) (T1 T2 : CType)
    (v : Z) (rest : list byte) :
  sizeof h1 T1 = sizeof h2 T2 ->
  (sizeof h1 T1 = 2%nat -> byte_order h1 = LittleEndian) ->
  (sizeof h1 T1 = 8%nat -> byte_order h1 = byte_order h2) ->
  wv_deserialize_scalar h2 T2 (wire_bytes h1 T1 v ++ rest)
  = Some (cast h2 T2 v, rest).
Proof.
  intros Hw H2 H8.
  rewrite wv_deserialize_scalar_bytes
    by (rewrite length_wire_bytes; exact Hw).
  do 2 f_equal. apply cast_congr.
  pose proof (modulus_pos (sizeof h2 T2)) as Hm.
  destruct (sizeof h2 T2 =? 8)%nat eqn:E8.
  - apply Nat.eqb_eq in E8. rewrite <- Hw in E8.
    rewrite (wire_bytes_host_order h1 T1 v E8).
    unfold object_number, object_bytes, be_number, be_bytes.
    rewrite <- (H8 E8), <- Hw, E8.
    destruct (byte_order h1); rewrite ?rev_involutive, le_number_le_digits;
      apply Z.mod_mod; pose proof (modulus_pos 8); lia.
  - apply Nat.eqb_neq in E8. rewrite <- Hw in *.
    rewrite wire_bytes_network_order by (auto || contradiction).
    rewrite be_number_be_bytes. apply Z.mod_mod. lia.
Qed.

(** X1.  Serializing a scalar never reaches the [assert(0)]: at each of the
    eleven types, on every host, it appends exactly [sizeof(T)] bytes after
    the bytes the buffer already held, and these bytes do not depend on what
    the buffer held. *)
Theorem X1_serialize_scalar_appends_sizeof (h : Host) (T : CType)
    (buf : WvBuf.t) (t : Z) :
  exists bytes,
    wv_serialize h T buf t = Some (buf ++ bytes)
    /\ wv_serialize h T WvBuf.empty t = Some bytes
    /\ length bytes = sizeof h T.
Proof.
  exists (wire_bytes h T t).
  unfold wv_serialize, _wv_serialize.
  split; [apply wv_serialize_scalar_appends|].
  split; [apply wv_serialize_scalar_appends | apply length_wire_bytes].
Qed.

(** X2.  The bytes appended are the value in network byte order, most
    significant byte first, for the types of one and four bytes on every
    host, of two bytes on a little-endian host and of eight bytes on a
    big-endian host. *)
Theorem X2_serialize_network_order (h : Host) (T : CType) (buf : WvBuf.t) (t : Z) :
  (sizeof h T = 8%nat -> byte_order h = BigEndian) ->
  (sizeof h T = 2%nat -> byte_order h = LittleEndian) ->
  wv_serialize h T buf t = Some (buf ++ be_bytes (sizeof h T) t).
Proof.
  intros H8 H2. unfold wv_serialize, _wv_serialize.
  rewrite wv_serialize_scalar_appends.
  now rewrite wire_bytes_network_order.
Qed.

Lemma X2_serialize_network_order_witness :
  (sizeof i386 UInt = 8%nat -> byte_order i386 = BigEndian)
  /\ (sizeof i386 UInt = 2%nat -> byte_order i386 = LittleEndian)
  /\ wv_serialize i386 UInt [x2a] 16909060
     = Some ([x2a] ++ be_bytes (sizeof i386 UInt) 16909060).
Proof.
  assert (H8 : sizeof i386 UInt = 8%nat -> byte_order i386 = BigEndian)
    by (simpl; discriminate).
  assert (H2 : sizeof i386 UInt = 2%nat -> byte_order i386 = LittleEndian)
    by (simpl; discriminate).
  split; [exact H8|]. split; [exact H2|].
  apply (X2_serialize_network_order i386 UInt [x2a] 16909060 H8 H2).
Defined.

(** X3.  The eight-byte path copies the object as it lies in memory: on a
    little-endian host the bytes appended are those of network byte order
    reversed. *)
Theorem X3_serialize_eight_bytes_little_endian (h : Host) (T : CType)
    (buf : WvBuf.t) (t : Z) :
  sizeof h T = 8%nat -> byte_order h = LittleEndian ->
  wv_serialize h T buf t = Some (buf ++ rev (be_bytes 8 t)).
Proof.
  intros Hs E. unfold wv_serialize, _wv_serialize.
  rewrite wv_serialize_scalar_appends, (wire_bytes_host_order h T t Hs).
  unfold object_bytes, be_bytes. rewrite E. now rewrite rev_involutive.
Qed.

Lemma X3_serialize_eight_bytes_little_endian_witness :
  sizeof x86_64 ULong = 8%nat
  /\ byte_order x86_64 = LittleEndian
  /\ wv_serialize x86_64 ULong [] 258 = Some ([] ++ rev (be_bytes 8 258)).
Proof.
  split; [reflexivity|]. split; [reflexivity|].
  apply (X3_serialize_eight_bytes_little_endian x86_64 ULong [] 258);
    reflexivity.
Defined.

(** X4.  On a big-endian host the two-byte path appends two zero bytes
    whatever the value is. *)
Theorem X4_serialize_two_bytes_big_endian (h : Host) (T : CType)
    (buf : WvBuf.t) (t : Z) :
  sizeof h T = 2%nat -> byte_order h = BigEndian ->
  wv_serialize h T buf t = Some (buf ++ [x00; x00]).
Proof.
  intros Hs E. unfold wv_serialize, _wv_serialize.
  now rewrite wv_serialize_scalar_appends, (wire_bytes_short_big_endian h T t Hs E).
Qed.

Lemma X4_serialize_two_bytes_big_endian_witness :
  sizeof s390x UShort = 2%nat
  /\ byte_order s390x = BigEndian
  /\ wv_serialize s390x UShort [x2a] 65535 = Some ([x2a] ++ [x00; x00]).
Proof.
  split; [reflexivity|]. split; [reflexivity|].
  apply (X4_serialize_two_bytes_big_endian s390x UShort [x2a] 65535);
    reflexivity.
Defined.

(** X5.  Round trip of a scalar: a representable value of any of the eleven
    types, serialized and then deserialized at the same type on the same
    host, comes back unchanged, and the bytes that followed it stay in the
    buffer; the two-byte types on a big-endian host are excepted. *)
Theorem X5_scalar_round_trip (h : Host) (T : CType) (v : Z) (rest : list byte) :
  representable h T v ->
  (sizeof h T = 2%nat -> byte_order h = LittleEndian) ->
  exists wire,
    wv_serialize h T WvBuf.empty v = Some wire
    /\ wv_deserialize h T (wire ++ rest) = Some (v, rest).
Proof.
  intros Hv H2. exists (wire_bytes h T v).
  split; [apply wv_serialize_scalar_appends|].
  now apply wv_deserialize_scalar_wire.
Qed.

Lemma X5_scalar_round_trip_witness :
  representable ppc32 LongLong (-2)
  /\ (sizeof ppc32 LongLong = 2%nat -> byte_order ppc32 = LittleEndian)
  /\ exists wire,
       wv_serialize ppc32 LongLong WvBuf.empty (-2) = Some wire
       /\ wv_deserialize ppc32 LongLong (wire ++ [x07]) = Some (-2, [x07]).
Proof.
  assert (Hv : representable ppc32 LongLong (-2)).
  { unfold representable. cbn [is_signed sizeof].
    change (modulus 8 / 2) with 9223372036854775808. lia. }
  assert (H2 : sizeof ppc32 LongLong = 2%nat -> byte_order ppc32 = LittleEndian)
    by (simpl; discriminate).
  split; [exact Hv|]. split; [exact H2|].
  apply (X5_scalar_round_trip ppc32 LongLong (-2) [x07] Hv H2).
Defined.

(** X6.  Zero, the least and the greatest value of each type are
    representable and survive the round trip, on the same paths. *)
Theorem X6_extremes_round_trip (h : Host) (T : CType) (rest : list byte) :
  (sizeof h T = 2%nat -> byte_order h = LittleEndian) ->
  wv_deserialize h T (wire_bytes h T 0 ++ rest) = Some (0, rest)
  /\ wv_deserialize h T (wire_bytes h T (min_value h T) ++ rest)
     = Some (min_value h T, rest)
  /\ wv_deserialize h T (wire_bytes h T (max_value h T) ++ rest)
     = Some (max_value h T, rest).
Proof.
  intros H2. repeat split; apply wv_deserialize_scalar_wire; auto;
    [apply representable_0 | apply representable_min | apply representable_max].
Qed.

Lemma X6_extremes_round_trip_witness :
  (sizeof x86_64 Short = 2%nat -> byte_order x86_64 = LittleEndian)
  /\ wv_deserialize x86_64 Short (wire_bytes x86_64 Short (-32768) ++ [])
     = Some (-32768, [])
  /\ wv_deserialize x86_64 Short (wire_bytes x86_64 Short 32767 ++ [])
     = Some (32767, []).
Proof.
  assert (H2 : sizeof x86_64 Short = 2%nat -> byte_order x86_64 = LittleEndian)
    by (intros _; reflexivity).
  destruct (X6_extremes_round_trip x86_64 Short [] H2) as (_ & Hmin & Hmax).
  split; [exact H2|]. split; [exact Hmin | exact Hmax].
Defined.

(** X7.  Interoperability: a representable [int] or [unsigned int]
    serialized on one host is read back unchanged by [wv_deserialize] on any
    other host, whatever the byte orders and data models of the two. *)
Theorem X7_int_between_hosts (h1 h2 : Host) (T : CType) (v : Z) (rest : list byte) :
  T = Int \/ T = UInt ->
  representable h1 T v ->
  wv_deserialize h2 T (wire_bytes h1 T v ++ rest) = Some (v, rest).
Proof.
  intros HT Hv.
  assert (Hs : forall h, sizeof h T = 4%nat) by (destruct HT; subst; reflexivity).
  assert (Hr : representable h2 T v) by (destruct HT; subst; exact Hv).
  unfold wv_deserialize, WvDeserialize_go, _wv_deserialize.
  rewrite (wv_deserialize_scalar_reinterpret h1 h2 T T v rest);
    try (rewrite (Hs h1); try discriminate; symmetry; apply Hs).
  do 2 f_equal.
  rewrite <- (cast_congr h2 T (v mod modulus (sizeof h2 T)) v).
  - apply cast_representable; [apply sizeof_pos | exact Hr].
  - apply Z.mod_mod. pose proof (modulus_pos (sizeof h2 T)). lia.
Qed.

Lemma X7_int_between_hosts_witness :
  (Int = Int \/ Int = UInt)
  /\ representable x86_64 Int (-7)
  /\ wv_deserialize s390x Int (wire_bytes x86_64 Int (-7) ++ [x01])
     = Some (-7, [x01]).
Proof.
  assert (HT : Int = Int \/ Int = UInt) by (left; reflexivity).
  assert (Hv : representable x86_64 Int (-7)).
  { unfold representable. cbn [is_signed sizeof].
    change (modulus 4 / 2) with 2147483648. lia. }
  split; [exact HT|]. split; [exact Hv|].
  apply (X7_int_between_hosts x86_64 s390x Int (-7) [x01] HT Hv).
Defined.

(** X8.  The bytes on the wire carry no type: deserializing at a type [T2]
    what was serialized at a type [T1] of the same width gives the value
    converted to [T2] as a C cast converts it, so that [int -1] is read as
    the [unsigned int] 4294967295.  (Two-byte types on a big-endian host
    excepted.) *)
Theorem X8_deserialize_at_other_type (h : Host) (T1 T2 : CType)
    (v : Z) (rest : list byte) :
  sizeof h T1 = sizeof h T2 ->
  (sizeof h T1 = 2%nat -> byte_order h = LittleEndian) ->
  wv_deserialize h T2 (wire_bytes h T1 v ++ rest) = Some (cast h T2 v, rest).
Proof.
  intros Hw H2. apply wv_deserialize_scalar_reinterpret; auto.
Qed.

Lemma X8_deserialize_at_other_type_witness :
  sizeof x86_64 Int = sizeof x86_64 UInt
  /\ (sizeof x86_64 Int = 2%nat -> byte_order x86_64 = LittleEndian)
  /\ wv_deserialize x86_64 UInt (wire_bytes x86_64 Int (-1) ++ [])
     = Some (4294967295, []).
Proof.
  assert (Hw : sizeof x86_64 Int = sizeof x86_64 UInt) by reflexivity.
  assert (H2 : sizeof x86_64 Int = 2%nat -> byte_order x86_64 = LittleEndian)
    by (intros _; reflexivity).
  split; [exact Hw|]. split; [exact H2|].
  apply (X8_deserialize_at_other_type x86_64 Int UInt (-1) [] Hw H2).
Defined.

(** X9.  Deserializing a scalar never fails and never reads a part of a
    value: on any buffer it returns a value of the type, and either the
    buffer was too short, the value is 0 and the buffer is untouched, or
    exactly [sizeof(T)] bytes were consumed from the front. *)
Theorem X9_deserialize_scalar_total (h : Host) (T : CType) (buf : WvBuf.t) :
  exists v buf',
    wv_deserialize h T buf = Some (v, buf')
    /\ representable h T v
    /\ (((WvBuf.used buf < sizeof h T)%nat /\ v = 0 /\ buf' = buf)
        \/ (exists bs, buf = bs ++ buf' /\ length bs = sizeof h T)).
Proof.
  unfold wv_deserialize, WvDeserialize_go, _wv_deserialize.
  destruct (buffer_split buf (sizeof h T)) as [H|(bs & rest & -> & L)].
  - exists 0, buf. split; [now apply wv_deserialize_scalar_underflow|].
    split; [apply representable_0 | left; auto].
  - eexists _, rest. split; [apply (wv_deserialize_scalar_bytes h T bs rest L)|].
    split; [apply cast_range | right; exists bs; auto].
Qed.

(** X10.  Deserialization reads network byte order on the paths of one,
    two and four bytes, on every host: whatever [sizeof(T)] bytes are at the
    front of the buffer, the result is the number they spell most
    significant byte first, converted to [T]. *)
Theorem X10_deserialize_network_order (h : Host) (T : CType) (bs rest : list byte) :
  length bs = sizeof h T ->
  sizeof h T <> 8%nat ->
  wv_deserialize h T (bs ++ rest) = Some (cast h T (be_number bs), rest).
Proof.
  intros L H8. unfold wv_deserialize, WvDeserialize_go, _wv_deserialize.
  rewrite (wv_deserialize_scalar_bytes h T bs rest L).
  apply Nat.eqb_neq in H8. now rewrite H8.
Qed.

Lemma X10_deserialize_network_order_witness :
  length [x01; x02] = sizeof ppc32 UShort
  /\ sizeof ppc32 UShort <> 8%nat
  /\ wv_deserialize ppc32 UShort ([x01; x02] ++ [x03]) = Some (258, [x03]).
Proof.
  assert (L : length [x01; x02] = sizeof ppc32 UShort) by reflexivity.
  assert (H8 : sizeof ppc32 UShort <> 8%nat) by (simpl; discriminate).
  split; [exact L|]. split; [exact H8|].
  apply (X10_deserialize_network_order ppc32 UShort [x01; x02] [x03] L H8).
Defined.

(** X11.  Values written one after the other are read back one after the
    other: two scalars, of any two types, serialized in a row into a buffer
    are returned by two deserializations in the same order, which use up
    exactly the bytes written. *)
Theorem X11_two_scalars_in_a_row (h : Host) (T1 T2 : CType) (v1 v2 : Z)
    (buf : WvBuf.t) :
  representable h T1 v1 -> representable h T2 v2 ->
  (sizeof h T1 = 2%nat \/ sizeof h T2 = 2%nat -> byte_order h = LittleEndian) ->
  (buf1 <- wv_serialize h T1 WvBuf.empty v1 ;;
   buf2 <- wv_serialize h T2 buf1 v2 ;;
   '(a, buf3) <- wv_deserialize h T1 (buf2 ++ buf) ;;
   '(b, buf4) <- wv_deserialize h T2 buf3 ;;
   Some (a, b, buf4))
  = Some (v1, v2, buf).
Proof.
  intros H1 H2 HE.
  unfold wv_serialize, _wv_serialize, wv_deserialize, WvDeserialize_go,
    _wv_deserialize.
  rewrite wv_serialize_scalar_appends. cbn [bind WvBuf.put WvBuf.empty app].
  rewrite wv_serialize_scalar_appends. cbn [bind WvBuf.put].
  rewrite <- app_assoc.
  rewrite wv_deserialize_scalar_wire by auto. cbn [bind].
  rewrite wv_deserialize_scalar_wire by auto. reflexivity.
Qed.

Lemma X11_two_scalars_in_a_row_witness :
  representable i386 UChar 200
  /\ representable i386 Long (-100000)
  /\ (sizeof i386 UChar = 2%nat \/ sizeof i386 Long = 2%nat ->
      byte_order i386 = LittleEndian)
  /\ (buf1 <- wv_serialize i386 UChar WvBuf.empty 200 ;;
      buf2 <- wv_serialize i386 Long buf1 (-100000) ;;
      '(a, buf3) <- wv_deserialize i386 UChar (buf2 ++ [x09]) ;;
      '(b, buf4) <- wv_deserialize i386 Long buf3 ;;
      Some (a, b, buf4))
     = Some (200, -100000, [x09]).
Proof.
  assert (H1 : representable i386 UChar 200).
  { unfold representable. cbn [is_signed sizeof].
    change (modulus 1) with 256. lia. }
  assert (H2 : representable i386 Long (-100000)).
  { unfold representable. cbn [is_signed sizeof i386 data_model].
    change (modulus 4 / 2) with 2147483648. lia. }
  assert (HE : sizeof i386 UChar = 2%nat \/ sizeof i386 Long = 2%nat ->
               byte_order i386 = LittleEndian) by (intros _; reflexivity).
  split; [exact H1|]. split; [exact H2|]. split; [exact HE|].
  apply (X11_two_scalars_in_a_row i386 UChar Long 200 (-100000) [x09] H1 H2 HE).
Defined.

(** X22.  No two values share an encoding: representable values of a type
    with the same bytes on the wire are equal.  (Two-byte types on a
    big-endian host excepted.) *)
Theorem X22_wire_bytes_injective (h : Host) (T : CType) (a b : Z) :
  representable h T a -> representable h T b ->
  (sizeof h T = 2%nat -> byte_order h = LittleEndian) ->
  wire_bytes h T a = wire_bytes h T b ->
  a = b.
Proof.
  intros Ha Hb H2 E.
  pose proof (wv_deserialize_scalar_wire h T a [] Ha H2) as Da.
  pose proof (wv_deserialize_scalar_wire h T b [] Hb H2) as Db.
  rewrite E, Db in Da. now injection Da.
Qed.

Lemma X22_wire_bytes_injective_witness :
  representable x86_64 SChar (-1)
  /\ (sizeof x86_64 SChar = 2%nat -> byte_order x86_64 = LittleEndian)
  /\ wire_bytes x86_64 SChar (-1) = wire_bytes x86_64 SChar (-1)
  /\ -1 = -1.
Proof.
  assert (Ha : representable x86_64 SChar (-1)).
  { unfold representable. cbn [is_signed sizeof].
    change (modulus 1 / 2) with 128. lia. }
  assert (H2 : sizeof x86_64 SChar = 2%nat -> byte_order x86_64 = LittleEndian)
    by (simpl; discriminate).
  assert (E : wire_bytes x86_64 SChar (-1) = wire_bytes x86_64 SChar (-1))
    by reflexivity.
  split; [exact Ha|]. split; [exact H2|]. split; [exact E|].
  apply (X22_wire_bytes_injective x86_64 SChar (-1) (-1) Ha Ha H2 E).
Defined.

(** ** Lists of scalars and of texts *)


Lemma length_concat_wire_bytes (h : Host) (T : CType) (lst : list Z) :
  length (concat (map (wire_bytes h T) lst)) = (length lst * sizeof h T)%nat.
Proof.
  induction lst as [|x l IH]; [reflexivity|].
  cbn [map concat length]. rewrite length_app, length_wire_bytes, IH. lia.
Qed.

Section DeserializeEach.

Context {T : Type}.
Variable deserialize_T : WvBuf.t -> option (T * WvBuf.t).


(** The loop over encodings that are read back up to a normal form. *)
Lemma deserialize_each_map (encoding : T -> list byte) (normal : T -> T)
    (lst acc : list T) (rest : list byte) :
  (forall t r, In t lst ->
     deserialize_T (encoding t ++ r) = Some (normal t, r)) ->
  deserialize_each deserialize_T (length lst)
    (concat (map encoding lst) ++ rest) acc
  = Some (acc ++ map normal lst, rest).
Proof.
  revert acc. induction lst as [|x l IH]; intros acc H; simpl.
  - now rewrite app_nil_r.
  - rewrite <- app_assoc, H by (left; reflexivity). cbn [bind].
    rewrite IH by (intros; apply H; right; assumption).
    now rewrite <- app_assoc.
Qed.

End DeserializeEach.


Lemma scalar_list_wire (h : Host) (T : CType) (buf : WvBuf.t) (lst : list Z) :
  Z.of_nat (length lst) < modulus (sizeof h (size_t h)) ->
  _wv_serialize_WvList (_wv_serialize h T) h buf lst
  = Some (buf ++ wire_bytes h (size_t h) (Z.of_nat (length lst))
              ++ concat (map (wire_bytes h T) lst)).
Proof.
  intros HN. apply _wv_serialize_WvList_bytes; [exact HN|].
  intros t b _. apply wv_serialize_scalar_appends.
Qed.

Lemma scalar_list_read (h : Host) (T : CType) (lst : list Z) (rest : list byte) :
  Z.of_nat (length lst) < modulus (sizeof h (size_t h)) ->
  Forall (representable h T) lst ->
  (sizeof h T = 2%nat -> byte_order h = LittleEndian) ->
  WvDeserialize_WvList_go (wv_deserialize h T) h
    (wire_bytes h (size_t h) (Z.of_nat (length lst))
       ++ concat (map (wire_bytes h T) lst) ++ rest)
  = Some (lst, rest).
Proof.
  intros HN Hv H2. apply WvDeserialize_WvList_go_bytes; [exact HN|].
  intros t r Ht. apply wv_deserialize_scalar_wire; [|exact H2].
  rewrite Forall_forall in Hv. now apply Hv.
Qed.

(** X12.  Round trip of a list of scalars: a [WvList] of representable
    values of a scalar type, serialized with the overload of that type and
    deserialized with its specialization, comes back with the same elements
    in the same order, and what followed the list stays in the buffer.  (Of
    lists no longer than a [size_t] counts; two-byte elements on a
    big-endian host excepted.) *)
Theorem X12_scalar_list_round_trip (h : Host) (T : CType)
    (lst : list Z) (rest : list byte) :
  Z.of_nat (length lst) < modulus (sizeof h (size_t h)) ->
  Forall (representable h T) lst ->
  (sizeof h T = 2%nat -> byte_order h = LittleEndian) ->
  exists wire,
    _wv_serialize_WvList (_wv_serialize h T) h WvBuf.empty lst = Some wire
    /\ WvDeserialize_WvList_go (wv_deserialize h T) h (wire ++ rest)
       = Some (lst, rest).
Proof.
  intros HN Hv H2. eexists. split; [now apply scalar_list_wire|].
  cbn [WvBuf.empty app]. rewrite <- app_assoc.
  now apply scalar_list_read.
Qed.

Lemma X12_scalar_list_round_trip_witness :
  Z.of_nat (length [0; 255; 7]) < modulus (sizeof ppc32 (size_t ppc32))
  /\ Forall (representable ppc32 UChar) [0; 255; 7]
  /\ (sizeof ppc32 UChar = 2%nat -> byte_order ppc32 = LittleEndian)
  /\ exists wire,
       _wv_serialize_WvList (_wv_serialize ppc32 UChar) ppc32 WvBuf.empty
         [0; 255; 7] = Some wire
       /\ WvDeserialize_WvList_go (wv_deserialize ppc32 UChar) ppc32
            (wire ++ [x2a]) = Some ([0; 255; 7], [x2a]).
Proof.
  assert (HN : Z.of_nat (length [0; 255; 7])
               < modulus (sizeof ppc32 (size_t ppc32)))
    by (vm_compute; reflexivity).
  assert (Hv : Forall (representable ppc32 UChar) [0; 255; 7]).
  { repeat constructor; unfold representable; cbn [is_signed sizeof];
      change (modulus 1) with 256; lia. }
  assert (H2 : sizeof ppc32 UChar = 2%nat -> byte_order ppc32 = LittleEndian)
    by (simpl; discriminate).
  split; [exact HN|]. split; [exact Hv|]. split; [exact H2|].
  apply (X12_scalar_list_round_trip ppc32 UChar [0; 255; 7] [x2a] HN Hv H2).
Defined.

(** X13.  The size of a serialized list of scalars: serialization cannot
    fail, keeps what the buffer held and appends [sizeof(size_t)] bytes of
    count and [sizeof(T)] bytes for each element. *)
Theorem X13_scalar_list_size (h : Host) (T : CType) (buf : WvBuf.t) (lst : list Z) :
  exists wire,
    _wv_serialize_WvList (_wv_serialize h T) h buf lst = Some (buf ++ wire)
    /\ length wire = (sizeof h (size_t h) + length lst * sizeof h T)%nat.
Proof.
  unfold _wv_serialize_WvList, _wv_serialize at 1.
  rewrite wv_serialize_scalar_appends. cbn [bind].
  rewrite (serialize_each_appends (_wv_serialize h T) (wire_bytes h T))
    by (intros; apply wv_serialize_scalar_appends).
  eexists. unfold WvBuf.put. rewrite <- app_assoc. split; [reflexivity|].
  now rewrite length_app, length_wire_bytes, length_concat_wire_bytes.
Qed.





(** X16.  A list inside a nested buffer: a list of scalars serialized into
    a buffer of its own, that buffer serialized as a nested buffer, is read
    back by deserializing the nested buffer and then the list from it; the
    inner buffer is used up and what followed the outer one is left. *)
Theorem X16_list_in_nested_buffer (h : Host) (T : CType)
    (lst : list Z) (rest : list byte) :
  Z.of_nat (sizeof h (size_t h) + length lst * sizeof h T)
    < modulus (sizeof h (size_t h)) ->
  Forall (representable h T) lst ->
  (sizeof h T = 2%nat -> byte_order h = LittleEndian) ->
  (inner <- _wv_serialize_WvList (_wv_serialize h T) h WvBuf.empty lst ;;
   '(outer, _) <- _wv_serialize_WvBuf h WvBuf.empty inner ;;
   '(inner', rest') <- WvDeserialize_WvBuf_go h (outer ++ rest) ;;
   '(lst', unread) <- WvDeserialize_WvList_go (wv_deserialize h T) h inner' ;;
   Some (lst', unread, rest'))
  = Some (lst, WvBuf.empty, rest).
Proof.
  intros HS Hv H2.
  assert (HN : Z.of_nat (length lst) < modulus (sizeof h (size_t h))).
  { pose proof (sizeof_pos h T). nia. }
  rewrite scalar_list_wire by exact HN. cbn [bind WvBuf.empty app].
  set (inner := wire_bytes h (size_t h) (Z.of_nat (length lst))
                  ++ concat (map (wire_bytes h T) lst)).
  assert (HL : Z.of_nat (WvBuf.used inner) < modulus (sizeof h (size_t h))).
  { unfold WvBuf.used, inner.
    now rewrite length_app, length_wire_bytes, length_concat_wire_bytes. }
  rewrite _wv_serialize_WvBuf_bytes. cbn [bind].
  change (WvBuf.empty ++ ?x) with x. rewrite <- app_assoc.
  rewrite (WvDeserialize_WvBuf_go_bytes h inner rest HL). cbn [bind].
  unfold inner.
  rewrite <- (app_nil_r (concat (map (wire_bytes h T) lst))).
  rewrite (scalar_list_read h T lst [] HN Hv H2). reflexivity.
Qed.

Lemma X16_list_in_nested_buffer_witness :
  Z.of_nat (sizeof x86_64 (size_t x86_64) + length [5; -6] * sizeof x86_64 Int)
    < modulus (sizeof x86_64 (size_t x86_64))
  /\ Forall (representable x86_64 Int) [5; -6]
  /\ (sizeof x86_64 Int = 2%nat -> byte_order x86_64 = LittleEndian)
  /\ (inner <- _wv_serialize_WvList (_wv_serialize x86_64 Int) x86_64
                 WvBuf.empty [5; -6] ;;
      '(outer, _) <- _wv_serialize_WvBuf x86_64 WvBuf.empty inner ;;
      '(inner', rest') <- WvDeserialize_WvBuf_go x86_64 (outer ++ [xff]) ;;
      '(lst', unread) <- WvDeserialize_WvList_go (wv_deserialize x86_64 Int)
                         x86_64 inner' ;;
      Some (lst', unread, rest'))
     = Some ([5; -6], WvBuf.empty, [xff]).
Proof.
  assert (HS : Z.of_nat (sizeof x86_64 (size_t x86_64)
                         + length [5; -6] * sizeof x86_64 Int)
               < modulus (sizeof x86_64 (size_t x86_64)))
    by (vm_compute; reflexivity).
  assert (Hv : Forall (representable x86_64 Int) [5; -6]).
  { repeat constructor; unfold representable; cbn [is_signed sizeof];
      change (modulus 4 / 2) with 2147483648; lia. }
  assert (H2 : sizeof x86_64 Int = 2%nat -> byte_order x86_64 = LittleEndian)
    by (intros _; reflexivity).
  split; [exact HS|]. split; [exact Hv|]. split; [exact H2|].
  apply (X16_list_in_nested_buffer x86_64 Int [5; -6] [xff] HS Hv H2).
Defined.

(** ** Runs and lists of texts *)

Lemma text_bytes_eq (s : WvString) : text_bytes s = cstr s ++ [x00].
Proof. unfold text_bytes. now rewrite _wv_serialize_WvString_bytes. Qed.

Lemma serialize_WvString_appends (buf : WvBuf.t) (s : WvString) :
  serialize_WvString buf s = Some (WvBuf.put buf (text_bytes s)).
Proof.
  unfold serialize_WvString, WvBuf.put.
  now rewrite text_bytes_eq, _wv_serialize_WvString_bytes.
Qed.

Lemma cstr_no_nul (s : WvString) : Forall (fun b => b <> x00) (cstr s).
Proof. destruct s; [constructor | apply c_str_no_nul]. Qed.

Lemma count_nul_text_bytes (s : WvString) :
  count_occ Byte.byte_eq_dec (text_bytes s) x00 = 1%nat.
Proof.
  rewrite text_bytes_eq, count_occ_app.
  replace (count_occ Byte.byte_eq_dec (cstr s) x00) with 0%nat; [reflexivity|].
  symmetry. apply count_occ_not_In. intros Hin.
  pose proof (cstr_no_nul s) as Hn. rewrite Forall_forall in Hn.
  now apply (Hn x00).
Qed.

Lemma _wv_deserialize_WvString_text_bytes (s : WvString) (rest : list byte) :
  _wv_deserialize_WvString (text_bytes s ++ rest) = Some (WvStr (cstr s), rest).
Proof.
  rewrite text_bytes_eq, <- app_assoc.
  apply _wv_deserialize_WvString_bytes, cstr_no_nul.
Qed.

(** X17.  Texts written in a row stay apart: serializing the texts of a
    list one after the other, as the list serializer does, cannot fail, and
    appends as many zero bytes as there are texts, each one ending a text. *)
Theorem X17_texts_in_a_row (buf : WvBuf.t) (texts : list WvString) :
  serialize_each serialize_WvString buf texts
    = Some (buf ++ concat (map (fun s => cstr s ++ [x00]) texts))
  /\ count_occ Byte.byte_eq_dec
       (concat (map (fun s => cstr s ++ [x00]) texts)) x00
     = length texts.
Proof.
  split.
  - rewrite (serialize_each_appends serialize_WvString text_bytes)
      by (intros; apply serialize_WvString_appends).
    do 3 f_equal. apply map_ext, text_bytes_eq.
  - induction texts as [|s l IH]; [reflexivity|].
    cbn [map concat length]. rewrite count_occ_app, IH.
    rewrite <- text_bytes_eq, count_nul_text_bytes. reflexivity.
Qed.

(** X18.  Round trip of a list of texts: a [WvList<WvString>] serialized and
    then deserialized, with the text deserializer that stops at the
    terminating nul, gives the texts back in order, each as its C-string
    content: a text without nul unchanged, the null text as the empty
    text. *)
Theorem X18_text_list_round_trip (h : Host) (texts : list WvString)
    (rest : list byte) :
  Z.of_nat (length texts) < modulus (sizeof h (size_t h)) ->
  exists wire,
    _wv_serialize_WvList serialize_WvString h WvBuf.empty texts = Some wire
    /\ WvDeserialize_WvList_go _wv_deserialize_WvString h (wire ++ rest)
       = Some (map (fun s => WvStr (cstr s)) texts, rest).
Proof.
  intros HN. eexists. split.
  - apply (_wv_serialize_WvList_bytes serialize_WvString text_bytes);
      [exact HN | intros; apply serialize_WvString_appends].
  - cbn [WvBuf.empty app]. rewrite <- app_assoc.
    unfold WvDeserialize_WvList_go.
    rewrite wv_deserialize_size_t by exact HN. cbn [bind].
    rewrite Nat2Z.id.
    apply (deserialize_each_map _wv_deserialize_WvString text_bytes
             (fun s => WvStr (cstr s)) texts [] rest).
    intros t r _. apply _wv_deserialize_WvString_text_bytes.
Qed.

Lemma X18_text_list_round_trip_witness :
  Z.of_nat (length [WvStr [x68; x69]; WvNull; WvStr []])
    < modulus (sizeof x86_64 (size_t x86_64))
  /\ exists wire,
       _wv_serialize_WvList serialize_WvString x86_64 WvBuf.empty
         [WvStr [x68; x69]; WvNull; WvStr []] = Some wire
       /\ WvDeserialize_WvList_go _wv_deserialize_WvString x86_64 (wire ++ [x01])
          = Some ([WvStr [x68; x69]; WvStr []; WvStr []], [x01]).
Proof.
  assert (HN : Z.of_nat (length [WvStr [x68; x69]; WvNull; WvStr []])
               < modulus (sizeof x86_64 (size_t x86_64)))
    by (vm_compute; reflexivity).
  split; [exact HN|].
  apply (X18_text_list_round_trip x86_64
           [WvStr [x68; x69]; WvNull; WvStr []] [x01] HN).
Defined.

(** ** The backslash codec through the stream *)

(** X19.  Decoding undoes encoding however the encoded bytes are cut into
    writes: when the chunks written to the decoder, without a flush between
    them, make up the encoding of [x], the strings read back make up [x]
    and no backslash is left pending. *)
Theorem X19_decode_encoded_chunks (x : list byte) (chunks : list (list byte)) :
  concat chunks = WvBackslash.encode_bytes x ->
  exists results,
    write_each WvBackslash.WvBackslashDecoder false
      WvBackslash.PASSTHROUGH chunks
    = (WvBackslash.PASSTHROUGH, results)
    /\ concat results = x.
Proof.
  intros Hc.
  pose proof (WvBackslashFacts.write_each_decoder_concat
                WvBackslash.PASSTHROUGH chunks) as H.
  destruct (write_each WvBackslash.WvBackslashDecoder false
              WvBackslash.PASSTHROUGH chunks) as [st results].
  rewrite Hc, WvBackslashFacts.decode_encode in H.
  injection H as H1 H2. subst st. exists results. auto.
Qed.

Lemma X19_decode_encoded_chunks_witness :
  concat [[x61; x5c]; [x6e; x5c]; [x5c]]
    = WvBackslash.encode_bytes [x61; x0a; x5c]
  /\ exists results,
       write_each WvBackslash.WvBackslashDecoder false
         WvBackslash.PASSTHROUGH [[x61; x5c]; [x6e; x5c]; [x5c]]
       = (WvBackslash.PASSTHROUGH, results)
       /\ concat results = [x61; x0a; x5c].
Proof.
  assert (Hc : concat [[x61; x5c]; [x6e; x5c]; [x5c]]
               = WvBackslash.encode_bytes [x61; x0a; x5c]) by reflexivity.
  split; [exact Hc|].
  apply (X19_decode_encoded_chunks [x61; x0a; x5c]
           [[x61; x5c]; [x6e; x5c]; [x5c]] Hc).
Defined.




(** X21.  What the encoder hands on holds no newline and no backspace, and
    is at least as long as, and at most twice as long as, its input. *)
Theorem X21_encoded_bytes (x : list byte) :
  Forall (fun b => b <> WvBackslash.newline /\ b <> WvBackslash.backspace)
    (WvBackslash.encode_bytes x)
  /\ (length x <= length (WvBackslash.encode_bytes x) <= 2 * length x)%nat.
Proof.
  unfold WvBackslash.encode_bytes.
  induction x as [|b x [IHf IHl]]; [split; [constructor | simpl; lia]|].
  cbn [flat_map]. split.
  - apply Forall_app. split; [|exact IHf].
    destruct b; vm_compute; repeat constructor; discriminate.
  - rewrite length_app. cbn [length].
    assert (Hb : (1 <= length (WvBackslash.encode_byte b) <= 2)%nat)
      by (destruct b; vm_compute; lia).
    lia.
Qed.
